(** * psplus-api: the refresh coordinator, the merge engine and the short id

    A shallow embedding of [refresher.js] and [routes.js] (the catalogue API
    that serves PlayStation Plus snapshots) and the properties of its
    specification, each stated over the embedded code.

    Conventions of the embedding:
    - a JavaScript string that the program hashes or compares is the list of
      its UTF-16 code units ([jstring]); file names, URLs and status texts,
      which are ASCII literals of the program, are Rocq strings;
    - a JavaScript number that holds an integer is a [Z]; the 32-bit
      conversions of the bit operators are written out;
    - the snapshot directory is a finite map from file name to file;
    - code that reads or writes module state, or throws, runs in the monad
      [M] (state passing with an outcome that is a value or an exception). *)

From Stdlib Require Import ZArith Lia List Permutation Sorted Ascii String.
From stdpp Require Import base option list gmap strings.

Local Open Scope Z_scope.

(** ** JavaScript primitives used by the program *)

Module Js.

(** A string value: its UTF-16 code units, as [charCodeAt] reads them. *)
Definition jstring : Type := list Z.

(** ToInt32 and ToUint32 of ECMA-262, on integers. *)
Definition ToInt32 (z : Z) : Z := (z + 2 ^ 31) mod 2 ^ 32 - 2 ^ 31.
Definition ToUint32 (z : Z) : Z := z mod 2 ^ 32.

(** [a ^ b]: both operands through ToInt32; the result is an int32. *)
Definition xor (a b : Z) : Z := ToInt32 (Z.lxor (ToInt32 a) (ToInt32 b)).

(** [a << k]: the left operand through ToInt32, the count modulo 32, the
    result through ToInt32. *)
Definition shl (a k : Z) : Z := ToInt32 (Z.shiftl (ToInt32 a) (k mod 32)).

(** [a >>> k]: the left operand through ToUint32. *)
Definition ushr (a k : Z) : Z := Z.shiftr (ToUint32 a) (k mod 32).

(** The digit characters of [Number.prototype.toString(radix)]: '0'..'9'
    then 'a'..'z'. *)
Definition digit_char (d : Z) : Z := if d <? 10 then 48 + d else 97 + (d - 10).

Fixpoint to_radix_aux (radix : Z) (fuel : nat) (n : Z) (acc : jstring) : jstring :=
  match fuel with
  | O => acc
  | S fuel' =>
      let acc' := digit_char (n mod radix) :: acc in
      if n / radix =? 0 then acc' else to_radix_aux radix fuel' (n / radix) acc'
  end.

(** [n.toString(radix)] for a non-negative integer [n]: the digits, most
    significant first, "0" for zero. A number below [2^k] has at most [k]
    digits, which bounds the recursion. *)
Definition Number_toString (n radix : Z) : jstring :=
  to_radix_aux radix (S (Z.to_nat (Z.log2 n))) n [].

(** [s.toLowerCase()] on the ASCII letters (the only letters the program
    passes to it are digits of a radix-36 rendering). *)
Definition toLowerCase (s : jstring) : jstring :=
  map (fun c => if (65 <=? c) && (c <=? 90) then c + 32 else c) s.

(** [s.slice(start)]: a negative [start] counts from the end. *)
Definition slice (s : jstring) (start : Z) : jstring :=
  let len := Z.of_nat (length s) in
  let from := if start <? 0 then Z.max (len + start) 0 else Z.min start len in
  drop (Z.to_nat from) s.

(** The code units of an ASCII Rocq string (program literals). *)
Fixpoint lit (s : string) : jstring :=
  match s with
  | EmptyString => []
  | String a s' => Z.of_nat (Ascii.nat_of_ascii a) :: lit s'
  end.

(** [String(n)] for an integer [n] in the range where JavaScript prints
    every digit (below 1e21 in magnitude): optional sign, decimal digits. *)
Definition String_of_int (n : Z) : jstring :=
  if n <? 0 then 45 :: Number_toString (- n) 10 else Number_toString n 10.

End Js.

Import Js.

(** ** Data model *)

(** A [conceptId] as the upstream JSON carries it: a number or a string.
    [Map] compares keys with SameValueZero, under which a number and a
    string are never the same key; that is the equality of this type. *)
Inductive Key : Type :=
  | KNum (n : Z)
  | KStr (s : jstring).

#[global] Instance Key_eq_dec : EqDecision Key.
Proof. solve_decision. Defined.

(** A raw game record, typed as the upstream data is: the fields are
    strings (a list of strings for [device]) and any of them may be absent,
    which is [None]. An element of a [games] array is always such a record,
    so the guard [a &&] of refresher.js, which lets a [null] element pass,
    is always true here. *)
Record RawGame : Type := mkRawGame {
  conceptId : option Key;
  name : option jstring;
  nameEn : option jstring;
  conceptUrl : option jstring;
  imageUrl : option jstring;
  device : option (list jstring);
  releaseDate : option jstring;
}.

#[global] Instance RawGame_eq_dec : EqDecision RawGame.
Proof. solve_decision. Defined.

(** One group of a grouped snapshot: [{ catalogKey, count, games }]. *)
Record Group : Type := mkGroup {
  catalogKey : option jstring;
  count : option Z;
  games : option (list RawGame);
}.

(** What [JSON.parse] returns for a snapshot text, as far as the program
    tells values apart: an array of groups, a falsy value ([null], [false],
    [0], the empty string), or any other value (which has no [flatMap]). *)
Inductive Doc : Type :=
  | DArray (groups : list Group)
  | DFalsy
  | DOther.

(** The public view of a game, built by [toPublicGame]. *)
Record PublicGame : Type := mkPublicGame {
  id : jstring;
  pub_conceptId : option Key;
  pub_name : option jstring;
  pub_nameEn : option jstring;
  gameUrl : option jstring;
  pub_imageUrl : option jstring;
  available_on : option (list jstring);
  pub_releaseDate : option jstring;
}.

(** One element of a catalogue response. *)
Record Catalogue : Type := mkCatalogue {
  catalogueName : string;
  description : string;
  cat_count : Z;
  cat_games : list PublicGame;
}.

(** A thrown value, by its message. *)
Definition Exn : Type := string.

(** ** Built-ins the program calls, as interfaces *)

(** [String.prototype.localeCompare]: negative, zero or positive. *)
Class LocaleCompare : Type := localeCompare : jstring -> jstring -> Z.

(** The comparator is consistent (ECMA-262 requires it of [localeCompare]):
    swapping the arguments flips the sign, and "not after" is transitive. *)
Class Collation `{LocaleCompare} : Prop := {
  localeCompare_flip a b : Z.sgn (localeCompare b a) = - Z.sgn (localeCompare a b);
  localeCompare_trans a b c :
    localeCompare a b <= 0 -> localeCompare b c <= 0 -> localeCompare a c <= 0;
}.

(** [JSON.parse] on a snapshot text ([None]: a SyntaxError) and
    [JSON.stringify(payload, null, 2)] on an array of groups. [Text] is the
    type of file contents and of fetched bodies. *)
Class Json (Text : Type) : Type := {
  JSON_parse : Text -> option Doc;
  JSON_stringify : list Group -> Text;
}.

(** Parsing what [JSON.stringify] printed gives the array back. *)
Class JsonRoundTrip (Text : Type) `{Json Text} : Prop :=
  parse_stringify groups : JSON_parse (JSON_stringify groups) = Some (DArray groups).

(** [Date.prototype.toISOString] on a time in milliseconds. *)
Class IsoDate : Type := toISOString : Z -> string.

(** [Array.prototype.sort(comparefn)]. The built-in sort is stable, and
    the engine (V8) calls [comparefn(later, earlier)]: the first argument
    is always the element that stands later in the array. Each element in
    turn is the pivot and is inserted into the sorted part before it, after
    every element it does not precede. For a consistent comparator the
    result is the one stable sorted arrangement of the array (see
    [Array_sort_unique]), whichever pairs the engine compares. *)
Section array_sort.
Context {A : Type} (comparefn : A -> A -> Z).

Fixpoint sort_insert (pivot : A) (sorted : list A) : list A :=
  match sorted with
  | [] => [pivot]
  | y :: rest =>
      if comparefn pivot y <? 0 then pivot :: y :: rest else y :: sort_insert pivot rest
  end.

Definition Array_sort (l : list A) : list A :=
  fold_left (fun sorted pivot => sort_insert pivot sorted) l [].

End array_sort.

(** The same sort with a comparator that may throw: the exception leaves
    the sort. An array of fewer than two elements is returned without a
    call of the comparator. *)
Section array_sort_exn.
Context {A : Type} (comparefn : A -> A -> Exn + Z).

Fixpoint sort_insert_exn (pivot : A) (sorted : list A) : Exn + list A :=
  match sorted with
  | [] => inr [pivot]
  | y :: rest =>
      match comparefn pivot y with
      | inl e => inl e
      | inr c =>
          if c <? 0 then inr (pivot :: y :: rest)
          else match sort_insert_exn pivot rest with
               | inl e => inl e
               | inr r => inr (y :: r)
               end
      end
  end.

Definition sort_step_exn (sorted : Exn + list A) (pivot : A) : Exn + list A :=
  match sorted with
  | inl e => inl e
  | inr sorted => sort_insert_exn pivot sorted
  end.

Definition Array_sort_exn (l : list A) : Exn + list A :=
  fold_left sort_step_exn l (inr []).

End array_sort_exn.

(** ** The effect monad: state passing with exceptions *)

Inductive Outcome (A : Type) : Type :=
  | Return (a : A)
  | Throw (e : Exn).
Arguments Return {A} a.
Arguments Throw {A} e.

Definition M (St A : Type) : Type := St -> Outcome A * St.

Definition ret {St A} (a : A) : M St A := fun s => (Return a, s).

Definition bind {St A B} (m : M St A) (k : A -> M St B) : M St B :=
  fun s => match m s with
           | (Return a, s') => k a s'
           | (Throw e, s') => (Throw e, s')
           end.

Definition throw {St A} (e : Exn) : M St A := fun s => (Throw e, s).

Definition gets {St A} (f : St -> A) : M St A := fun s => (Return (f s), s).

Definition modify {St} (f : St -> St) : M St unit := fun s => (Return tt, f s).

(** [try { m } catch (e) { h e }] *)
Definition try_catch {St A} (m : M St A) (h : Exn -> M St A) : M St A :=
  fun s => match m s with
           | (Return a, s') => (Return a, s')
           | (Throw e, s') => h e s'
           end.

(** [try { m } finally { f }]: [f] runs on both exits; the outcome of [m]
    stands unless [f] itself throws. *)
Definition try_finally {St A} (m : M St A) (f : M St unit) : M St A :=
  fun s => match m s with
           | (r, s') => match f s' with
                        | (Return _, s'') => (r, s'')
                        | (Throw e, s'') => (Throw e, s'')
                        end
           end.

(** A computation on the outer state, run where a local object is also in
    scope; and the scope of a local object created with value [l0]. *)
Definition outer {L St A} (m : M St A) : M (L * St) A :=
  fun ls => match m ls.2 with (r, s') => (r, (ls.1, s')) end.

Definition with_local {L St A} (l0 : L) (m : M (L * St) A) : M St A :=
  fun s => match m (l0, s) with (r, ls) => (r, ls.2) end.

Declare Scope m_scope.
Delimit Scope m_scope with M.
Notation "x <- m ;; k" := (bind m (fun x => k))
  (at level 100, m at next level, right associativity) : m_scope.
Notation "m ;;; k" := (bind m (fun _ => k))
  (at level 100, right associativity) : m_scope.

(** [for (const x of l) f(x)] and [l.map(f)] with effects, left to right. *)
Fixpoint for_each {St A} (f : A -> M St unit) (l : list A) : M St unit :=
  match l with
  | [] => ret tt
  | x :: l' => bind (f x) (fun _ => for_each f l')
  end.

Fixpoint map_m {St A B} (f : A -> M St B) (l : list A) : M St (list B) :=
  match l with
  | [] => ret []
  | x :: l' => bind (f x) (fun y => bind (map_m f l') (fun ys => ret (y :: ys)))
  end.

(** A settled promise, as [Promise.allSettled] reports it. *)
Inductive Settled (A : Type) : Type :=
  | Fulfilled (value : A)
  | Rejected (reason : Exn).
Arguments Fulfilled {A} value.
Arguments Rejected {A} reason.

Definition is_rejected {A} (r : Settled A) : bool :=
  match r with Rejected _ => true | Fulfilled _ => false end.

Definition settle {St A} (m : M St A) : M St (Settled A) :=
  fun s => match m s with
           | (Return a, s') => (Return (Fulfilled a), s')
           | (Throw e, s') => (Return (Rejected e), s')
           end.

(** ** refresher.js *)

Module Refresher.

(** The snapshot directory [full_responses]: file name to content and
    last-write time. [mkdir] and [writeFile] on it do not fail; reading a
    file that is not there does. *)
Record File (Text : Type) : Type := mkFile {
  content : Text;
  mtimeMs : Z;
}.
Arguments mkFile {Text} content mtimeMs.
Arguments content {Text} f.
Arguments mtimeMs {Text} f.

(** The [statuses] object of one refresh: file name to status line. *)
Abbreviation StatusMap := (gmap string string).

(** A registered completion listener. It receives [{ statuses }], acts on
    the state of the module that registered it, and may throw. *)
Definition Listener (S : Type) : Type := StatusMap -> S -> option Exn * S.

(** What the program did, in order (ghost state: the program never reads
    it). *)
Inductive Event (Text : Type) : Type :=
  | EvFetch (url : string)
  | EvWrite (path : string) (data : Text)
  | EvNotify (index : nat) (statuses : StatusMap)
  | EvConsoleError (msg : string).
Arguments EvFetch {Text} url.
Arguments EvWrite {Text} path data.
Arguments EvNotify {Text} index statuses.
Arguments EvConsoleError {Text} msg.

(** The module variables [isRefreshing] and [listeners], the directory,
    and the state of the subscribing module ([app]). *)
Record World (Text S : Type) : Type := mkWorld {
  isRefreshing : bool;
  listeners : list (Listener S);
  disk : gmap string (File Text);
  app : S;
  trace : list (Event Text);
}.
Arguments mkWorld {Text S} isRefreshing listeners disk app trace.
Arguments isRefreshing {Text S} w.
Arguments listeners {Text S} w.
Arguments disk {Text S} w.
Arguments app {Text S} w.
Arguments trace {Text S} w.

(** The outside world during one run: what each URL answers (a body, or
    the error axios raises, a timeout included), and the time on the clock
    when the program writes the file at a given path (its last-write time)
    or stamps the status of a given file name ([new Date()]). *)
Record Env (Text : Type) : Type := mkEnv {
  http_get : string -> Exn + Text;
  clock : string -> Z;
}.
Arguments mkEnv {Text} http_get clock.
Arguments http_get {Text} e url.
Arguments clock {Text} e f.

(** What [refreshOnce] resolves to. *)
Inductive RefreshResult : Type :=
  | InProgress
  | Done (anyRejected : bool) (statuses : StatusMap)
  | Failed (error : string) (statuses : StatusMap).

Definition FULL_DIR : string := "full_responses".

Definition ENDPOINTS : list (string * string) :=
  [ ("plus-games-list.txt",
     "https://www.playstation.com/bin/imagic/gameslist?locale=en-in&categoryList=plus-games-list");
    ("ubisoft-classics-list.txt",
     "https://www.playstation.com/bin/imagic/gameslist?locale=en-in&categoryList=ubisoft-classics-list");
    ("plus-classics-list.txt",
     "https://www.playstation.com/bin/imagic/gameslist?locale=en-in&categoryList=plus-classics-list");
    ("plus-monthly-games-list.txt",
     "https://www.playstation.com/bin/imagic/gameslist?locale=en-in&categoryList=plus-monthly-games-list") ].

Definition THREE_DAYS_MS : Z := 2 * 24 * 60 * 60 * 1000.

Definition filePath (name : string) : string := FULL_DIR +:+ "/" +:+ name.

(** [sortByName]: [(a && a.name) || ''] is the name, or the empty string
    when the field is absent (or empty). *)
Definition name_or_empty (a : RawGame) : jstring :=
  match name a with
  | Some n => n
  | None => []
  end.

Definition sortByName `{LocaleCompare} (games : list RawGame) : list RawGame :=
  Array_sort (fun a b => localeCompare (name_or_empty a) (name_or_empty b)) games.

Section refresher.
Context {Text S : Type} `{!Json Text} `{!LocaleCompare} `{!IsoDate}.

Local Abbreviation W := (World Text S).

Definition set_isRefreshing (b : bool) : M W unit :=
  modify (fun w => mkWorld b (listeners w) (disk w) (app w) (trace w)).

Definition emit (ev : Event Text) : M W unit :=
  modify (fun w => mkWorld (isRefreshing w) (listeners w) (disk w) (app w) (trace w ++ [ev])).

(** [addRefreshListener(fn)]: [None] stands for an argument that is not a
    function. *)
Definition addRefreshListener (fn : option (Listener S)) : M W unit :=
  match fn with
  | Some f =>
      modify (fun w => mkWorld (isRefreshing w) (listeners w ++ [f]) (disk w) (app w) (trace w))
  | None => ret tt
  end.

(** [fsp.mkdir(dir, { recursive: true })]: the directory is the map
    [disk] itself, which is always there. *)
Definition ensureDir (dir : string) : M W unit := ret tt.

Definition fetchRaw (env : Env Text) (url : string) : M W Text :=
  (emit (EvFetch url) ;;;
   match http_get env url with
   | inl e => throw e
   | inr data => ret data
   end)%M.

(** [fsp.stat(p)] or [null]. *)
Definition statOrNull (d : gmap string (File Text)) (p : string) : option (File Text) :=
  d !! p.

Fixpoint needsRefresh_loop (now : Z) (d : gmap string (File Text)) (names : list string) : bool :=
  match names with
  | [] => false
  | n :: rest =>
      match statOrNull d (filePath n) with
      | None => true
      | Some st => if now - mtimeMs st >? THREE_DAYS_MS then true
                   else needsRefresh_loop now d rest
      end
  end.

(** [needsRefresh()], with [now] the value of [Date.now()]. *)
Definition needsRefresh (now : Z) (d : gmap string (File Text)) : bool :=
  needsRefresh_loop now d (map fst ENDPOINTS).

Definition writeFileRaw (env : Env Text) (p : string) (data : Text) : M W unit :=
  (modify (fun w => mkWorld (isRefreshing w) (listeners w)
                      (<[p := mkFile data (clock env p)]> (disk w))
                      (app w) (trace w)) ;;;
   emit (EvWrite p data))%M.

Definition readFile (p : string) : M W Text :=
  fun w => match disk w !! p with
           | Some f => (Return (content f), w)
           | None => (Throw ("ENOENT: no such file or directory, open " +:+ p), w)
           end.

Definition parse (txt : Text) : M W Doc :=
  match JSON_parse txt with
  | Some d => ret d
  | None => throw "SyntaxError: JSON.parse"
  end.

Definition group_games (g : Group) : list RawGame :=
  match games g with
  | Some l => l
  | None => []
  end.

(** [(grouped || []).flatMap(g => g.games || [])] *)
Definition flatten_doc (grouped : Doc) : M W (list RawGame) :=
  match grouped with
  | DArray gs => ret (concat (map group_games gs))
  | DFalsy => ret []
  | DOther => throw "TypeError: (grouped || []).flatMap is not a function"
  end.

Definition generateAllMerged (env : Env Text) : M W unit :=
  (let names := map fst ENDPOINTS in
   rawArr <- map_m (fun n => readFile (filePath n)) names ;;
   parsed <- map_m parse rawArr ;;
   perDoc <- map_m flatten_doc parsed ;;
   let allGames := concat perDoc in
   let gamesSorted := sortByName allGames in
   let allPayload :=
     [ mkGroup (Some (lit "ALL")) (Some (Z.of_nat (length gamesSorted))) (Some gamesSorted) ] in
   let out := JSON_stringify allPayload in
   writeFileRaw env (filePath "all.txt") out)%M.

(** The body of [refreshOnce] runs with the local object [statuses] in
    scope: its state is the pair of [statuses] and the world. *)
Local Abbreviation WL := (StatusMap * World Text S)%type.

Definition set_status (key line : string) : M WL unit :=
  modify (fun ls => (<[key := line]> ls.1, ls.2)).

Definition get_statuses : M WL StatusMap := gets fst.

Definition console_error (msg : string) : M W unit := emit (EvConsoleError msg).

(** One element of [entries.map(async ([fname, url]) => ...)]. *)
Definition refresh_source (env : Env Text) (entry : string * string) : M WL string :=
  (let '(fname, url) := entry in
   data <- outer (fetchRaw env url) ;;
   outer (writeFileRaw env (filePath fname) data) ;;;
   let ts := toISOString (clock env fname) in
   set_status fname (fname +:+ " refreshed on " +:+ ts +:+ " successfully") ;;;
   ret fname)%M.

(** [fn({ statuses })] for the listener at position [i]. *)
Definition call_listener (i : nat) (fn : Listener S) : M WL unit :=
  fun ls =>
    let statuses := ls.1 in
    let w := ls.2 in
    let '(thrown, app') := fn statuses (app w) in
    let w' := mkWorld (isRefreshing w) (listeners w) (disk w) app'
                      (trace w ++ [EvNotify i statuses]) in
    match thrown with
    | Some e => (Throw e, (statuses, w'))
    | None => (Return tt, (statuses, w'))
    end.

(** [for (const fn of listeners) fn({ statuses })] *)
Definition notify_listeners : M WL unit :=
  (fns <- outer (gets listeners) ;;
   for_each (fun ifn => call_listener ifn.1 ifn.2) (imap (fun i fn => (i, fn)) fns))%M.

(** The [try] block of [refreshOnce]. The four source tasks settle
    independently; they act on distinct files and distinct keys of
    [statuses], so the model runs them in the order of [ENDPOINTS]. *)
Definition refresh_try (env : Env Text) : M WL RefreshResult :=
  (outer (ensureDir FULL_DIR) ;;;
   let entries := ENDPOINTS in
   results <- map_m (fun entry => settle (refresh_source env entry)) entries ;;
   let anyRejected := existsb is_rejected results in
   (if negb anyRejected then
      outer (generateAllMerged env) ;;;
      let ts := toISOString (clock env "all.txt") in
      set_status "all.txt" ("all.txt refreshed on " +:+ ts +:+ " successfully") ;;;
      try_catch notify_listeners
        (fun e => outer (console_error ("[refresher] listener error: " +:+ e)))
    else ret tt) ;;;
   statuses <- get_statuses ;;
   ret (Done anyRejected statuses))%M.

Definition refresh_catch (e : Exn) : M WL RefreshResult :=
  (outer (console_error ("[refresher] refresh failed: " +:+ e)) ;;;
   statuses <- get_statuses ;;
   ret (Failed e statuses))%M.

Definition refreshOnce (env : Env Text) : M W RefreshResult :=
  (flag <- gets isRefreshing ;;
   if flag then ret InProgress
   else
     set_isRefreshing true ;;;
     with_local (∅ : StatusMap)
       (try_finally
          (try_catch (refresh_try env) refresh_catch)
          (outer (set_isRefreshing false))))%M.

(** [maybeRefresh()], with [now] the value of [Date.now()] it reads. *)
Definition maybeRefresh (env : Env Text) (now : Z) : M W unit :=
  try_catch
    (d <- gets disk ;;
     if needsRefresh now d then (refreshOnce env ;;; ret tt) else ret tt)%M
    (fun e => console_error ("[refresher] maybeRefresh error: " +:+ e)).

End refresher.

End Refresher.

(** ** routes.js *)

Module Routes.

Import Refresher.

(** [fnv1a32]: the loop body for one code unit [c = str.charCodeAt(i)].
    The six terms of the sum are int32 values, so the double addition is
    exact (see [fnv_sum_exact]). *)
Definition fnv_step (h c : Z) : Z :=
  let h := xor h c in
  ushr (h + (shl h 1 + shl h 4 + shl h 7 + shl h 8 + shl h 24)) 0.

Definition fnv1a32 (str : jstring) : Z :=
  ushr (fold_left fnv_step str 0x811c9dc5) 0.

(** [String(conceptId)]: a string is itself, a number its decimal digits,
    an absent field the text "undefined". *)
Definition String_of (v : option Key) : jstring :=
  match v with
  | Some (KStr s) => s
  | Some (KNum n) => String_of_int n
  | None => lit "undefined"
  end.

Definition shortId (conceptId : option Key) : jstring :=
  let n := fnv1a32 (String_of conceptId) in
  let base36 := toLowerCase (Number_toString n 36) in
  slice (lit "000000" ++ base36) (-6).

Definition toPublicGame (g : RawGame) : PublicGame :=
  {| id := shortId (conceptId g);
     pub_conceptId := conceptId g;
     pub_name := name g;
     pub_nameEn := nameEn g;
     gameUrl := conceptUrl g;
     pub_imageUrl := imageUrl g;
     available_on := device g;
     pub_releaseDate := releaseDate g |}.

(** The module variable [cache]; [None] is [null]. *)
Record Cache : Type := mkCache {
  included : option (list Catalogue);
  classics : option (list Catalogue);
  monthly : option (list Catalogue);
  ubisoft : option (list Catalogue);
  all : option (list Catalogue);
}.

Definition empty_cache : Cache := mkCache None None None None None.

(** The callback that routes.js passes to [addRefreshListener]. *)
Definition invalidate_cache : Listener Cache :=
  fun _ _ => (None, mkCache None None None None None).

(** A JavaScript [Map] in insertion order. *)
Section js_map.
Context {K V : Type} `{EqDecision K}.

Definition map_has (m : list (K * V)) (k : K) : bool :=
  existsb (fun kv => bool_decide (kv.1 = k)) m.

Fixpoint map_set (m : list (K * V)) (k : K) (v : V) : list (K * V) :=
  match m with
  | [] => [(k, v)]
  | kv :: m' => if bool_decide (kv.1 = k) then (k, v) :: m' else kv :: map_set m' k v
  end.

Definition map_values (m : list (K * V)) : list V := map snd m.

End js_map.

(** A response: [res.json(body)], or [res.status(500).json({error, details})]. *)
Inductive Response (B : Type) : Type :=
  | R200 (body : B)
  | R500 (error details : string).
Arguments R200 {B} body.
Arguments R500 {B} error details.

(** [sortByName] of routes.js: [a.name.localeCompare(b.name)]. Reading
    [localeCompare] off an absent [a.name] throws; an absent [b.name] is
    converted to the text "undefined". *)
Definition compare_names `{LocaleCompare} (a b : RawGame) : Exn + Z :=
  match name a with
  | None => inl "TypeError: Cannot read properties of undefined (reading 'localeCompare')"
  | Some an =>
      inr (localeCompare an (match name b with Some bn => bn | None => lit "undefined" end))
  end.

Definition sortByName `{LocaleCompare} (arr : list RawGame) : Exn + list RawGame :=
  Array_sort_exn compare_names arr.

Section routes.
Context {Text : Type} `{!Json Text} `{!LocaleCompare}.

Local Abbreviation Disk := (gmap string (File Text)).

(** [path.join(__dirname, relativePath)], relative to the directory that
    holds both modules: a leading "./" goes. *)
Definition path_join (relativePath : string) : string :=
  match relativePath with
  | String "."%char (String "/"%char rest) => rest
  | _ => relativePath
  end.

Definition readFileSync (d : Disk) (relativePath : string) : Exn + Text :=
  match d !! path_join relativePath with
  | Some f => inr (content f)
  | None => inl ("ENOENT: no such file or directory, open " +:+ path_join relativePath)
  end.

Definition JSON_parse_exn (txt : Text) : Exn + Doc :=
  match JSON_parse txt with
  | Some doc => inr doc
  | None => inl "SyntaxError: JSON.parse"
  end.

Definition readJsonFile (d : Disk) (relativePath : string) : Exn + Doc :=
  match readFileSync d relativePath with
  | inl e => inl e
  | inr txt => JSON_parse_exn txt
  end.

(** [data.flatMap(group => group.games || [])] *)
Definition flatten_groups (data : Doc) : Exn + list RawGame :=
  match data with
  | DArray gs => inr (concat (map group_games gs))
  | DFalsy | DOther => inl "TypeError: data.flatMap is not a function"
  end.

Definition loadGroupedGames (d : Disk) (fileRelPath : string) : Exn + list RawGame :=
  match readJsonFile d fileRelPath with
  | inl e => inl e
  | inr data => flatten_groups data
  end.

(** The loop of '/all-games' over [[...included, ...classics, ...monthly,
    ...ubisoft]], and [Array.from(byId.values())]. *)
Definition dedupe_step (byId : list (option Key * RawGame)) (g : RawGame)
  : list (option Key * RawGame) :=
  if negb (map_has byId (conceptId g)) then map_set byId (conceptId g) g else byId.

Definition dedupeByConceptId (merged : list RawGame) : list RawGame :=
  map_values (fold_left dedupe_step merged []).

(** The [try] block of '/all-games' on a cache miss. *)
Definition build_all_games (d : Disk) : Exn + list Catalogue :=
  match loadGroupedGames d "./full_responses/plus-games-list.txt" with
  | inl e => inl e
  | inr included =>
  match loadGroupedGames d "./full_responses/plus-classics-list.txt" with
  | inl e => inl e
  | inr classics =>
  match loadGroupedGames d "./full_responses/plus-monthly-games-list.txt" with
  | inl e => inl e
  | inr monthly =>
  match loadGroupedGames d "./full_responses/ubisoft-classics-list.txt" with
  | inl e => inl e
  | inr ubisoft =>
  match sortByName (dedupeByConceptId (included ++ classics ++ monthly ++ ubisoft)) with
  | inl e => inl e
  | inr sorted =>
      let games := map toPublicGame sorted in
      inr [ mkCatalogue "All" "Every game from every catalogue"
                        (Z.of_nat (length games)) games ]
  end end end end end.

(** [router.get('/all-games', ...)]: the response and the cache afterwards. *)
Definition get_all_games (c : Cache) (d : Disk) : Response (list Catalogue) * Cache :=
  match all c with
  | Some body => (R200 body, c)
  | None =>
      match build_all_games d with
      | inr body =>
          (R200 body, mkCache (included c) (classics c) (monthly c) (ubisoft c) (Some body))
      | inl e => (R500 "Failed to build all-games" e, c)
      end
  end.

(** [router.get('/all-data', ...)] *)
Definition get_all_data (d : Disk) : Response Doc :=
  match readFileSync d "./full_responses/all.txt" with
  | inl e => R500 "Failed to load all-data" e
  | inr txt =>
      match JSON_parse_exn txt with
      | inl e => R500 "Failed to load all-data" e
      | inr json => R200 json
      end
  end.

(** The [try] block of a per-catalogue route on a cache miss. The four
    routes differ in the file, the cache field and the two texts only. *)
Definition build_catalogue (d : Disk) (file catalogueName description : string)
  : Exn + list Catalogue :=
  match readJsonFile d file with
  | inl e => inl e
  | inr groups =>
  match flatten_groups groups with
  | inl e => inl e
  | inr flat =>
  match sortByName flat with
  | inl e => inl e
  | inr sorted =>
      let games := map toPublicGame sorted in
      inr [ mkCatalogue catalogueName description (Z.of_nat (length games)) games ]
  end end end.

(** [router.get('/included-classics', ...)] *)
Definition get_included_classics (c : Cache) (d : Disk) : Response (list Catalogue) * Cache :=
  match classics c with
  | Some body => (R200 body, c)
  | None =>
      match build_catalogue d "./full_responses/plus-classics-list.txt"
              "Playstation Plus Classic Games"
              "Classic Games from Playstation history, available on Plus Extra tier and above"
      with
      | inr body =>
          (R200 body, mkCache (included c) (Some body) (monthly c) (ubisoft c) (all c))
      | inl e => (R500 "Failed to load classics" e, c)
      end
  end.

(** [router.get('/included-games', ...)] *)
Definition get_included_games (c : Cache) (d : Disk) : Response (list Catalogue) * Cache :=
  match included c with
  | Some body => (R200 body, c)
  | None =>
      match build_catalogue d "./full_responses/plus-games-list.txt"
              "Playstation Plus Included Games"
              "Vast collection of games available on Plus Extra tier and above"
      with
      | inr body =>
          (R200 body, mkCache (Some body) (classics c) (monthly c) (ubisoft c) (all c))
      | inl e => (R500 "Failed to load included games" e, c)
      end
  end.

(** [router.get('/monthly-games', ...)] *)
Definition get_monthly_games (c : Cache) (d : Disk) : Response (list Catalogue) * Cache :=
  match monthly c with
  | Some body => (R200 body, c)
  | None =>
      match build_catalogue d "./full_responses/plus-monthly-games-list.txt"
              "Playstation Plus Monthly Games"
              "A fresh selection of games refreshed every month, and yours to keep for as long as youâ€™re a member"
      with
      | inr body =>
          (R200 body, mkCache (included c) (classics c) (Some body) (ubisoft c) (all c))
      | inl e => (R500 "Failed to load monthly games" e, c)
      end
  end.

(** [router.get('/ubisoft-classics', ...)] *)
Definition get_ubisoft_classics (c : Cache) (d : Disk) : Response (list Catalogue) * Cache :=
  match ubisoft c with
  | Some body => (R200 body, c)
  | None =>
      match build_catalogue d "./full_responses/ubisoft-classics-list.txt"
              "Included Ubisoft Classic Games"
              "A curated selection of Ubisoft's Classic Hits, available on Plus Extra tier and above"
      with
      | inr body =>
          (R200 body, mkCache (included c) (classics c) (monthly c) (Some body) (all c))
      | inl e => (R500 "Failed to load ubisoft classics" e, c)
      end
  end.

End routes.

(** [process.env.ADMIN_TOKEN || 'dev-admin-token']: an unset or empty
    variable gives the default. *)
Definition ADMIN_TOKEN (env_ADMIN_TOKEN : option string) : string :=
  match env_ADMIN_TOKEN with
  | Some t => if String.eqb t "" then "dev-admin-token" else t
  | None => "dev-admin-token"
  end.

(** What 'POST /admin/refresh' answers: 401, 202, 200 with the result of
    the refresh spread into the body, or 500. *)
Inductive AdminResponse : Type :=
  | Admin401
  | Admin202
  | Admin200 (result : RefreshResult)
  | Admin500 (details : string).

Section admin.
Context {Text S : Type} `{!Json Text} `{!LocaleCompare} `{!IsoDate}.

(** [router.post('/admin/refresh', ...)], with [token] the header
    [x-admin-token] of the request ([None]: the header is absent). *)
Definition post_admin_refresh (env_ADMIN_TOKEN : option string) (env : Env Text)
    (token : option string) : M (World Text S) AdminResponse :=
  try_catch
    (match token with
     | None => ret Admin401
     | Some t =>
         if String.eqb t "" || negb (String.eqb t (ADMIN_TOKEN env_ADMIN_TOKEN))
         then ret Admin401
         else
           (result <- refreshOnce env ;;
            match result with
            | InProgress => ret Admin202
            | _ => ret (Admin200 result)
            end)%M
     end)
    (fun e => ret (Admin500 e)).

End admin.

End Routes.

(** ** The reference algorithm of the specification (section 4.1) *)

Module Spec.

(** FNV-1a, 32 bits: start from the offset basis; for each input value,
    XOR it in, then multiply by the prime modulo 2^32. *)
Definition FNV_OFFSET_BASIS : Z := 0x811c9dc5.
Definition FNV_PRIME : Z := 16777619.

Definition fnv1a_fold (h b : Z) : Z := (Z.lxor h b * FNV_PRIME) mod 2 ^ 32.

Definition fnv1a (input : list Z) : Z := fold_left fnv1a_fold input FNV_OFFSET_BASIS.

(** Left-pad with [c] to at least [width] characters; keep the last [k]. *)
Definition pad_start (width : nat) (c : Z) (s : jstring) : jstring :=
  replicate (width - length s)%nat c ++ s.

Definition last_chars (k : nat) (s : jstring) : jstring :=
  drop (length s - k)%nat s.

(** Hash, render in base 36 (lowercase digits), pad to 6, keep the last 6. *)
Definition deriveId (input : list Z) : jstring :=
  last_chars 6 (pad_start 6 48 (Number_toString (fnv1a input) 36)).

(** The bytes of a string in UTF-8 (a surrogate pair is one code point, a
    lone surrogate is encoded as U+FFFD, as [TextEncoder] does). *)
Definition is_high_surrogate (c : Z) : bool := (0xD800 <=? c) && (c <? 0xDC00).
Definition is_low_surrogate (c : Z) : bool := (0xDC00 <=? c) && (c <? 0xE000).

Definition utf8_3 (c : Z) : list Z :=
  [0xE0 + c / 4096; 0x80 + (c / 64) mod 64; 0x80 + c mod 64].

Definition utf8_4 (cp : Z) : list Z :=
  [0xF0 + cp / 262144; 0x80 + (cp / 4096) mod 64; 0x80 + (cp / 64) mod 64; 0x80 + cp mod 64].

Fixpoint utf8 (s : jstring) : list Z :=
  match s with
  | [] => []
  | c :: rest =>
      if c <? 0x80 then c :: utf8 rest
      else if c <? 0x800 then [0xC0 + c / 64; 0x80 + c mod 64] ++ utf8 rest
      else if is_high_surrogate c then
        match rest with
        | d :: rest' =>
            if is_low_surrogate d
            then utf8_4 (0x10000 + (c - 0xD800) * 1024 + (d - 0xDC00)) ++ utf8 rest'
            else utf8_3 0xFFFD ++ utf8 rest
        | [] => utf8_3 0xFFFD
        end
      else if is_low_surrogate c then utf8_3 0xFFFD ++ utf8 rest
      else utf8_3 c ++ utf8 rest
  end.

(** The bytes of a string in UTF-16, little and big endian. *)
Definition utf16le (s : jstring) : list Z := flat_map (fun c => [c mod 256; c / 256]) s.
Definition utf16be (s : jstring) : list Z := flat_map (fun c => [c / 256; c mod 256]) s.

(** [^[a-z0-9]{6}$] *)
Definition is_az09 (c : Z) : bool :=
  ((48 <=? c) && (c <=? 57)) || ((97 <=? c) && (c <=? 122)).

Definition matches_id_pattern (s : jstring) : bool :=
  (length s =? 6)%nat && forallb is_az09 s.

End Spec.

Import Refresher Routes.

(** * Vocabulary of the statements

    Closed forms of the effectful code, the notions the properties are
    stated with, and the sample inputs of the examples. *)

(** ** Lists, digits and games *)

(** The value of a digit character, and the number that a string of digits
    denotes in a radix. *)
Definition digit_value (c : Z) : Z := if c <? 97 then c - 48 else c - 97 + 10.

Definition digits_value (radix : Z) (s : jstring) : Z :=
  fold_left (fun v c => v * radix + digit_value c) s 0.

(** [l.map(f)] for an [f] that may throw, without state. *)
Fixpoint mapE {A B} (f : A -> Exn + B) (l : list A) : Exn + list B :=
  match l with
  | [] => inr []
  | x :: l' =>
      match f x with
      | inl e => inl e
      | inr y => match mapE f l' with
                 | inl e => inl e
                 | inr ys => inr (y :: ys)
                 end
      end
  end.

Definition outcome_of {A} (r : Exn + A) : Outcome A :=
  match r with
  | inl e => Throw e
  | inr a => Return a
  end.

(** The games of a parsed snapshot that is an array or falsy. *)
Definition games_of_doc (grouped : Doc) : list RawGame :=
  match grouped with
  | DArray gs => concat (map group_games gs)
  | DFalsy | DOther => []
  end.

(** The records of a list that carry a given conceptId, and the first of
    them. *)
Definition has_conceptId (k : option Key) (g : RawGame) : bool :=
  bool_decide (conceptId g = k).

Definition with_conceptId (k : option Key) (l : list RawGame) : list RawGame :=
  List.filter (has_conceptId k) l.

Definition first_with_conceptId (k : option Key) (l : list RawGame) : option RawGame :=
  List.find (has_conceptId k) l.

(** The games of a '/all-games' body that carry a given conceptId. *)
Definition public_with_conceptId (k : option Key) (l : list PublicGame) : list PublicGame :=
  List.filter (fun p => bool_decide (pub_conceptId p = k)) l.

(** A '/all-games' body that holds each conceptId at most once, and a
    cache whose memoized '/all-games' body, if any, is such a body. *)
Definition once_each (body : list Catalogue) : Prop :=
  exists cat, body = [cat] /\
    forall k, (length (public_with_conceptId k (cat_games cat)) <= 1)%nat.

Definition cache_once_each (c : Cache) : Prop :=
  forall cached, all c = Some cached -> once_each cached.

(** A game without a name. *)
Definition nameless (k : option Key) : RawGame :=
  mkRawGame k None None None None None None.

(** The positions of the listeners that were called, in order, as the
    trace records them. *)
Definition notified {Text} (tr : list (Event Text)) : list nat :=
  omap (fun ev => match ev with EvNotify i _ => Some i | _ => None end) tr.

(** The order of refresher.js on games: by name, an absent name counting
    as the empty string. *)
Definition by_name `{LocaleCompare} (a b : RawGame) : Z :=
  localeCompare (name_or_empty a) (name_or_empty b).

(** ** Orders *)

Section sort_vocabulary.
Context {A : Type} (cmp : A -> A -> Z).

(** [a] does not sort after [b]; [y] sorts equal to [z]. *)
Definition not_after (a b : A) : Prop := cmp a b <= 0.
Definition same_rank (z y : A) : bool := cmp z y =? 0.

End sort_vocabulary.

(** ** Staleness *)

Section staleness_vocabulary.
Context {Text : Type}.

(** A source is stale, as [needsRefresh] judges it. *)
Definition stale (now : Z) (d : gmap string (File Text)) (n : string) : Prop :=
  match d !! filePath n with
  | None => True
  | Some st => now - mtimeMs st > THREE_DAYS_MS
  end.

(** The four snapshots, all present, all last written at [mtime]. *)
Definition snapshots_written_at (txt : Text) (mtime : Z) : gmap string (File Text) :=
  foldr (fun n d => <[filePath n := mkFile txt mtime]> d) ∅ (map fst ENDPOINTS).

End staleness_vocabulary.

(** ** The refresh, step by step *)

Section refresh_vocabulary.
Context {Text S : Type} `{!Json Text} `{!LocaleCompare} `{!IsoDate}.

Local Abbreviation W := (World Text S).
Local Abbreviation WL := (StatusMap * World Text S)%type.

(** How one source task settles, and what it leaves behind. *)
Definition source_result (env : Env Text) (entry : string * string) : Settled string :=
  match http_get env entry.2 with
  | inl e => Rejected e
  | inr _ => Fulfilled entry.1
  end.

Definition source_effect (env : Env Text) (entry : string * string) (ls : WL) : WL :=
  match http_get env entry.2 with
  | inl e =>
      (ls.1,
       mkWorld (isRefreshing ls.2) (listeners ls.2) (disk ls.2) (app ls.2)
               (trace ls.2 ++ [EvFetch entry.2]))
  | inr data =>
      (<[entry.1 := entry.1 +:+ " refreshed on " +:+ toISOString (clock env entry.1)
                     +:+ " successfully"]> ls.1,
       mkWorld (isRefreshing ls.2) (listeners ls.2)
               (<[filePath entry.1 := mkFile data (clock env (filePath entry.1))]> (disk ls.2))
               (app ls.2)
               ((trace ls.2 ++ [EvFetch entry.2]) ++ [EvWrite (filePath entry.1) data]))
  end.

Definition sources_effect (env : Env Text) (entries : list (string * string)) (ls : WL) : WL :=
  fold_left (fun ls e => source_effect env e ls) entries ls.

(** The events of the tasks: a fetch per source, and a write after each
    fetch that succeeded. *)
Definition source_events (env : Env Text) (entry : string * string) : list (Event Text) :=
  match http_get env entry.2 with
  | inl _ => [EvFetch entry.2]
  | inr data => [EvFetch entry.2; EvWrite (filePath entry.1) data]
  end.

Definition sources_events (env : Env Text) : list (Event Text) :=
  concat (map (source_events env) ENDPOINTS).

Definition with_flag (b : bool) (w : W) : W :=
  mkWorld b (listeners w) (disk w) (app w) (trace w).

(** What [generateAllMerged] reads, parses and flattens, as functions of
    the directory. *)
Definition read_snapshot (d : gmap string (File Text)) (n : string) : Exn + Text :=
  match d !! filePath n with
  | Some f => inr (content f)
  | None => inl ("ENOENT: no such file or directory, open " +:+ filePath n)
  end.

Definition parse_snapshot (txt : Text) : Exn + Doc :=
  match JSON_parse txt with
  | Some doc => inr doc
  | None => inl "SyntaxError: JSON.parse"
  end.

Definition doc_games (grouped : Doc) : Exn + list RawGame :=
  match grouped with
  | DArray gs => inr (concat (map group_games gs))
  | DFalsy => inr []
  | DOther => inl "TypeError: (grouped || []).flatMap is not a function"
  end.

Definition all_payload (perDoc : list (list RawGame)) : list Group :=
  [ mkGroup (Some (lit "ALL"))
            (Some (Z.of_nat (length (Refresher.sortByName (concat perDoc)))))
            (Some (Refresher.sortByName (concat perDoc))) ].

Definition merged_payload (d : gmap string (File Text)) : Exn + list Group :=
  match mapE (read_snapshot d) (map fst ENDPOINTS) with
  | inl e => inl e
  | inr rawArr =>
      match mapE parse_snapshot rawArr with
      | inl e => inl e
      | inr parsed =>
          match mapE doc_games parsed with
          | inl e => inl e
          | inr perDoc => inr (all_payload perDoc)
          end
      end
  end.

(** The listener loop: the listeners run in order on the subscriber's
    state until one throws. The result is what was thrown (if anything),
    the state afterwards, and how many listeners were called. *)
Fixpoint notify_run (st : StatusMap) (fns : list (Listener S)) (a : S) : option Exn * S * nat :=
  match fns with
  | [] => (None, a, 0%nat)
  | fn :: rest =>
      match fn st a with
      | (Some e, a') => (Some e, a', 1%nat)
      | (None, a') =>
          match notify_run st rest a' with
          | (r, a'', k) => (r, a'', Datatypes.S k)
          end
      end
  end.

Definition notify_events (st : StatusMap) (from k : nat) : list (Event Text) :=
  map (fun i => EvNotify i st) (seq from k).

(** The world after the merged file is written, after the listeners have
    been notified, and after the outer [catch] has logged. *)
Definition merged_world (env : Env Text) (w : W) (payload : list Group) : W :=
  mkWorld (isRefreshing w) (listeners w)
          (<[filePath "all.txt" := mkFile (JSON_stringify payload) (clock env (filePath "all.txt"))]>
             (disk w))
          (app w)
          (trace w ++ [EvWrite (filePath "all.txt") (JSON_stringify payload)]).

Definition listener_error_log (thrown : option Exn) : list (Event Text) :=
  match thrown with
  | Some e => [EvConsoleError ("[refresher] listener error: " +:+ e)]
  | None => []
  end.

Definition notified_world (st : StatusMap) (w : W) : W :=
  mkWorld (isRefreshing w) (listeners w) (disk w)
          (notify_run st (listeners w) (app w)).1.2
          ((trace w ++ notify_events st 0 (notify_run st (listeners w) (app w)).2)
             ++ listener_error_log (notify_run st (listeners w) (app w)).1.1).

Definition failed_world (w : W) (e : Exn) : W :=
  mkWorld (isRefreshing w) (listeners w) (disk w) (app w)
          (trace w ++ [EvConsoleError ("[refresher] refresh failed: " +:+ e)]).

Definition all_status (env : Env Text) (st : StatusMap) : StatusMap :=
  <["all.txt" := "all.txt refreshed on " +:+ toISOString (clock env "all.txt")
                  +:+ " successfully"]> st.

(** Two states that differ at most in the order of the trace. *)
Definition same_but_trace (ls1 ls2 : WL) : Prop :=
  ls1.1 = ls2.1 /\ isRefreshing ls1.2 = isRefreshing ls2.2 /\
  listeners ls1.2 = listeners ls2.2 /\ disk ls1.2 = disk ls2.2 /\ app ls1.2 = app ls2.2.

End refresh_vocabulary.

(** ** Instances of the interfaces and sample worlds, for the examples *)

(** Comparison of strings by code units, as the C locale collates. *)
Fixpoint code_unit_compare (a b : jstring) : Z :=
  match a, b with
  | [], [] => 0
  | [], _ :: _ => -1
  | _ :: _, [] => 1
  | x :: a', y :: b' =>
      if x <? y then -1 else if y <? x then 1 else code_unit_compare a' b'
  end.

Definition code_unit_locale : LocaleCompare := code_unit_compare.

(** A text given by what it parses to. *)
Inductive SampleText : Type :=
  | TextOf (doc : Doc)
  | Malformed.

Definition sample_json : Json SampleText := {|
  JSON_parse txt := match txt with TextOf doc => Some doc | Malformed => None end;
  JSON_stringify groups := TextOf (DArray groups);
|}.

(** The examples stop every clock at time 0, whose ISO text is the epoch. *)
Definition epoch_iso : IsoDate := fun _ => "1970-01-01T00:00:00.000Z".

Definition sample_game (k : Z) (n : string) : RawGame :=
  mkRawGame (Some (KNum k)) (Some (lit n)) None None None None None.

Definition sample_snapshot : SampleText :=
  TextOf (DArray [ mkGroup (Some (lit "PLUS")) (Some 2)
                           (Some [sample_game 10001 "b"; sample_game 10002 "a"]) ]).

(** What [sample_snapshot] parses to. *)
Definition sample_doc : Doc :=
  DArray [ mkGroup (Some (lit "PLUS")) (Some 2)
                   (Some [sample_game 10001 "b"; sample_game 10002 "a"]) ].

Definition sample_catalogue : list Catalogue :=
  [ mkCatalogue "All" "Every game from every catalogue" 0 [] ].

(** Every endpoint answers with [sample_snapshot]. *)
Definition env_all_ok : Env SampleText :=
  mkEnv (fun _ => inr sample_snapshot) (fun _ => 0).

(** The plus-games-list endpoint times out; the other three answer. *)
Definition env_one_down : Env SampleText :=
  mkEnv (fun url =>
           if String.eqb url
                "https://www.playstation.com/bin/imagic/gameslist?locale=en-in&categoryList=plus-games-list"
           then inl "timeout of 30000ms exceeded"
           else inr sample_snapshot)
        (fun _ => 0).

(** Every endpoint answers, one of them with a text that is not JSON. *)
Definition env_bad_json : Env SampleText :=
  mkEnv (fun url =>
           if String.eqb url
                "https://www.playstation.com/bin/imagic/gameslist?locale=en-in&categoryList=plus-games-list"
           then inr Malformed
           else inr sample_snapshot)
        (fun _ => 0).

(** An idle world: the cache of routes.js is populated and its invalidating
    callback is the one registered listener. *)
Definition world_idle : World SampleText Cache :=
  mkWorld false [invalidate_cache] ∅
          (mkCache None None None None (Some sample_catalogue)) [].

(** The same world while a refresh is in flight. *)
Definition world_busy : World SampleText Cache :=
  mkWorld true [invalidate_cache] ∅
          (mkCache None None None None (Some sample_catalogue)) [].

(** A listener that throws, registered before the cache's callback. *)
Definition broken_listener : Listener Cache :=
  fun _ c => (Some "listener failed", c).

Definition world_broken_listener : World SampleText Cache :=
  mkWorld false [broken_listener; invalidate_cache] ∅
          (mkCache None None None None (Some sample_catalogue)) [].

(** A snapshot text with one group of the given games, and a directory
    in which the snapshots of included-games and of classics both hold
    conceptId 10001. *)
Definition snapshot_of (games : list RawGame) : SampleText :=
  TextOf (DArray [ mkGroup (Some (lit "PLUS")) (Some (Z.of_nat (length games)))
                           (Some games) ]).

Definition disk_shared_conceptId : gmap string (File SampleText) :=
  <[filePath "plus-games-list.txt" :=
      mkFile (snapshot_of [sample_game 10001 "from included-games"]) 0]>
  (<[filePath "plus-classics-list.txt" :=
       mkFile (snapshot_of [sample_game 10001 "from classics";
                            sample_game 10002 "only in classics"]) 0]>
  (<[filePath "plus-monthly-games-list.txt" := mkFile (snapshot_of []) 0]>
  (<[filePath "ubisoft-classics-list.txt" :=
       mkFile (snapshot_of [sample_game 10003 "only in ubisoft-classics"]) 0]> ∅))).

(** ** The four per-catalogue routes, by name *)

Inductive CatalogueRoute : Type :=
  | IncludedGames
  | IncludedClassics
  | MonthlyGames
  | UbisoftClassics.

(** The entry of [ENDPOINTS] whose snapshot a route serves. *)
Definition route_source (r : CatalogueRoute) : string * string :=
  match r with
  | IncludedGames =>
      ("plus-games-list.txt",
       "https://www.playstation.com/bin/imagic/gameslist?locale=en-in&categoryList=plus-games-list")
  | IncludedClassics =>
      ("plus-classics-list.txt",
       "https://www.playstation.com/bin/imagic/gameslist?locale=en-in&categoryList=plus-classics-list")
  | MonthlyGames =>
      ("plus-monthly-games-list.txt",
       "https://www.playstation.com/bin/imagic/gameslist?locale=en-in&categoryList=plus-monthly-games-list")
  | UbisoftClassics =>
      ("ubisoft-classics-list.txt",
       "https://www.playstation.com/bin/imagic/gameslist?locale=en-in&categoryList=ubisoft-classics-list")
  end.

(** The cache field a route memoizes in, and the texts of its answers. *)
Definition route_entry (r : CatalogueRoute) (c : Cache) : option (list Catalogue) :=
  match r with
  | IncludedGames => included c
  | IncludedClassics => classics c
  | MonthlyGames => monthly c
  | UbisoftClassics => ubisoft c
  end.

Definition route_name (r : CatalogueRoute) : string :=
  match r with
  | IncludedGames => "Playstation Plus Included Games"
  | IncludedClassics => "Playstation Plus Classic Games"
  | MonthlyGames => "Playstation Plus Monthly Games"
  | UbisoftClassics => "Included Ubisoft Classic Games"
  end.

Definition route_path (r : CatalogueRoute) : string :=
  "./full_responses/" +:+ (route_source r).1.

Definition route_description (r : CatalogueRoute) : string :=
  match r with
  | IncludedGames => "Vast collection of games available on Plus Extra tier and above"
  | IncludedClassics =>
      "Classic Games from Playstation history, available on Plus Extra tier and above"
  | MonthlyGames =>
      "A fresh selection of games refreshed every month, and yours to keep for as long as youâ€™re a member"
  | UbisoftClassics =>
      "A curated selection of Ubisoft's Classic Hits, available on Plus Extra tier and above"
  end.

Definition set_route_entry (r : CatalogueRoute) (body : list Catalogue) (c : Cache) : Cache :=
  match r with
  | IncludedGames => mkCache (Some body) (classics c) (monthly c) (ubisoft c) (all c)
  | IncludedClassics => mkCache (included c) (Some body) (monthly c) (ubisoft c) (all c)
  | MonthlyGames => mkCache (included c) (classics c) (Some body) (ubisoft c) (all c)
  | UbisoftClassics => mkCache (included c) (classics c) (monthly c) (Some body) (all c)
  end.

(** The catalogue a route answers with for a list of games. *)
Definition route_catalogue `{LocaleCompare} (r : CatalogueRoute) (flat : list RawGame)
  : list Catalogue :=
  [ mkCatalogue (route_name r) (route_description r) (Z.of_nat (length flat))
                (map toPublicGame (Refresher.sortByName flat)) ].

Definition route_error (r : CatalogueRoute) : string :=
  match r with
  | IncludedGames => "Failed to load included games"
  | IncludedClassics => "Failed to load classics"
  | MonthlyGames => "Failed to load monthly games"
  | UbisoftClassics => "Failed to load ubisoft classics"
  end.

Definition route_handler {Text} `{!Json Text} `{!LocaleCompare} (r : CatalogueRoute)
  : Cache -> gmap string (File Text) -> Response (list Catalogue) * Cache :=
  match r with
  | IncludedGames => get_included_games
  | IncludedClassics => get_included_classics
  | MonthlyGames => get_monthly_games
  | UbisoftClassics => get_ubisoft_classics
  end.

(** The games of an array of groups, flattened, and whether a game has a
    name. *)
Definition flat_games (groups : list Group) : list RawGame :=
  concat (map group_games groups).

Definition named (g : RawGame) : Prop := is_Some (name g).

(** * Properties *)

(** ** The 32-bit arithmetic of [fnv1a32] *)

Section int32.

Lemma ToInt32_range z : - 2 ^ 31 <= ToInt32 z < 2 ^ 31.
Proof.
  unfold ToInt32.
  pose proof (Z.mod_pos_bound (z + 2 ^ 31) (2 ^ 32) ltac:(lia)). lia.
Qed.

Lemma ToInt32_congr z : exists k, ToInt32 z = z + 2 ^ 32 * k.
Proof.
  unfold ToInt32. exists (- ((z + 2 ^ 31) / 2 ^ 32)).
  pose proof (Z.div_mod (z + 2 ^ 31) (2 ^ 32) ltac:(lia)). lia.
Qed.

Lemma lxor_mod_pow2 a b n :
  0 <= n -> Z.lxor a b mod 2 ^ n = Z.lxor (a mod 2 ^ n) (b mod 2 ^ n).
Proof.
  intros Hn. apply Z.bits_inj'. intros i Hi.
  rewrite Z.lxor_spec.
  destruct (Z.lt_ge_cases i n) as [Hlt | Hge].
  - rewrite !Z.mod_pow2_bits_low by lia. apply Z.lxor_spec.
  - rewrite !Z.mod_pow2_bits_high by lia. reflexivity.
Qed.

Lemma mod_congr a b k : a = b + 2 ^ 32 * k -> a mod 2 ^ 32 = b mod 2 ^ 32.
Proof.
  intros ->. rewrite Z.mul_comm. apply Z_mod_plus_full.
Qed.

Lemma xor_mod a b : xor a b mod 2 ^ 32 = Z.lxor a b mod 2 ^ 32.
Proof.
  unfold xor.
  destruct (ToInt32_congr (Z.lxor (ToInt32 a) (ToInt32 b))) as [k ->].
  rewrite (mod_congr _ _ k eq_refl).
  destruct (ToInt32_congr a) as [ka Ha], (ToInt32_congr b) as [kb Hb].
  rewrite (lxor_mod_pow2 (ToInt32 a)), (lxor_mod_pow2 a) by lia.
  rewrite (mod_congr _ _ ka Ha), (mod_congr _ _ kb Hb). reflexivity.
Qed.

Lemma shl_congr a k :
  0 <= k < 32 -> exists j, shl a k = a * 2 ^ k + 2 ^ 32 * j.
Proof.
  intros Hk. unfold shl. rewrite (Z.mod_small k 32) by lia.
  rewrite Z.shiftl_mul_pow2 by lia.
  destruct (ToInt32_congr (ToInt32 a * 2 ^ k)) as [j1 ->].
  destruct (ToInt32_congr a) as [j2 ->].
  exists (j1 + j2 * 2 ^ k). ring.
Qed.

Lemma ushr_0 a : ushr a 0 = a mod 2 ^ 32.
Proof. unfold ushr, ToUint32. rewrite Z.mod_0_l by lia. apply Z.shiftr_0_r. Qed.

(** The add-and-shift line of the loop multiplies by the FNV prime modulo
    2^32, whatever the accumulator and the code unit. *)
Lemma fnv_step_spec h c : fnv_step h c = Spec.fnv1a_fold h c.
Proof.
  unfold fnv_step, Spec.fnv1a_fold, Spec.FNV_PRIME. rewrite ushr_0.
  set (x := xor h c).
  destruct (shl_congr x 1 ltac:(lia)) as [j1 ->].
  destruct (shl_congr x 4 ltac:(lia)) as [j4 ->].
  destruct (shl_congr x 7 ltac:(lia)) as [j7 ->].
  destruct (shl_congr x 8 ltac:(lia)) as [j8 ->].
  destruct (shl_congr x 24 ltac:(lia)) as [j24 ->].
  rewrite (mod_congr _ (x * 16777619) (j1 + j4 + j7 + j8 + j24)) by (simpl; ring).
  rewrite Z.mul_mod by lia. unfold x. rewrite xor_mod.
  rewrite <- Z.mul_mod by lia. reflexivity.
Qed.

(** The sum that the loop forms before [>>> 0] stays within the integers a
    double holds exactly. *)
Lemma fnv_sum_exact h c :
  let x := xor h c in
  - 2 ^ 53 < x + (shl x 1 + shl x 4 + shl x 7 + shl x 8 + shl x 24) < 2 ^ 53.
Proof.
  intros x.
  pose proof (ToInt32_range (Z.lxor (ToInt32 h) (ToInt32 c))) as Hx.
  fold (xor h c) in Hx. fold x in Hx.
  assert (Hs : forall k, - 2 ^ 31 <= shl x k < 2 ^ 31) by (intros k; apply ToInt32_range).
  pose proof (Hs 1). pose proof (Hs 4). pose proof (Hs 7). pose proof (Hs 8).
  pose proof (Hs 24). lia.
Qed.

Lemma fnv1a_fold_range h b : 0 <= Spec.fnv1a_fold h b < 2 ^ 32.
Proof. unfold Spec.fnv1a_fold. apply Z.mod_pos_bound. lia. Qed.

Lemma fnv1a_range input : 0 <= Spec.fnv1a input < 2 ^ 32.
Proof.
  unfold Spec.fnv1a.
  assert (H0 : 0 <= Spec.FNV_OFFSET_BASIS < 2 ^ 32) by (unfold Spec.FNV_OFFSET_BASIS; lia).
  revert H0. generalize Spec.FNV_OFFSET_BASIS.
  induction input as [| b input IH]; intros h Hh; simpl; [exact Hh |].
  apply IH, fnv1a_fold_range.
Qed.

Lemma fnv1a32_spec str : fnv1a32 str = Spec.fnv1a str.
Proof.
  unfold fnv1a32. rewrite ushr_0.
  assert (Hfold : fold_left fnv_step str 0x811c9dc5 = Spec.fnv1a str).
  { unfold Spec.fnv1a, Spec.FNV_OFFSET_BASIS. generalize 0x811c9dc5.
    induction str as [| c str IH]; intros h; simpl; [reflexivity |].
    rewrite fnv_step_spec. apply IH. }
  rewrite Hfold. apply Z.mod_small, fnv1a_range.
Qed.

End int32.

(** ** Rendering: radix 36, padding and the last six characters *)

Section rendering.

Lemma digit_char_az09 d : 0 <= d < 36 -> Spec.is_az09 (digit_char d) = true.
Proof.
  intros Hd. unfold Spec.is_az09, digit_char.
  destruct (Z.ltb_spec d 10); apply orb_true_iff; [left | right];
    apply andb_true_iff; split; apply Z.leb_le; lia.
Qed.

Lemma to_radix_aux_az09 fuel n acc :
  Forall (fun c => Spec.is_az09 c = true) acc ->
  Forall (fun c => Spec.is_az09 c = true) (to_radix_aux 36 fuel n acc).
Proof.
  revert n acc. induction fuel as [| fuel IH]; intros n acc Hacc; simpl; [exact Hacc |].
  assert (Hacc' : Forall (fun c => Spec.is_az09 c = true) (digit_char (n mod 36) :: acc)).
  { constructor; [| exact Hacc]. apply digit_char_az09, Z.mod_pos_bound. lia. }
  destruct (n / 36 =? 0); [exact Hacc' | apply IH, Hacc'].
Qed.

Lemma Number_toString_az09 n :
  Forall (fun c => Spec.is_az09 c = true) (Number_toString n 36).
Proof. apply to_radix_aux_az09. constructor. Qed.

Lemma toLowerCase_az09 s :
  Forall (fun c => Spec.is_az09 c = true) s -> toLowerCase s = s.
Proof.
  unfold toLowerCase. induction 1 as [| c s Hc _ IH]; simpl; [reflexivity |].
  rewrite IH. f_equal.
  unfold Spec.is_az09 in Hc.
  destruct (Z.leb_spec 65 c), (Z.leb_spec c 90); simpl; try reflexivity.
  apply orb_true_iff in Hc as [Hc | Hc]; apply andb_true_iff in Hc as [H1 H2];
    apply Z.leb_le in H1, H2; lia.
Qed.

(** [("000000" + b).slice(-6)] pads [b] to six and keeps the last six. *)
Lemma slice_pad b :
  slice (lit "000000" ++ b) (-6) = Spec.last_chars 6 (Spec.pad_start 6 48 b).
Proof.
  unfold slice, Spec.last_chars, Spec.pad_start.
  change (lit "000000") with (replicate 6 48).
  rewrite !length_app, !length_replicate.
  change (-6 <? 0) with true. cbv iota.
  replace (Z.to_nat (Z.max (Z.of_nat (6 + length b) + -6) 0)) with (length b) by lia.
  destruct (le_lt_dec (length b) 6) as [Hle | Hgt].
  - replace (6 - length b + length b - 6)%nat with 0%nat by lia.
    rewrite drop_0.
    replace 6%nat with (length b + (6 - length b))%nat at 1 by lia.
    rewrite replicate_add, <- app_assoc.
    rewrite drop_app_length'; [reflexivity | by rewrite length_replicate].
  - replace (6 - length b)%nat with 0%nat by lia.
    change (replicate 0 48 ++ b) with b. rewrite Nat.add_0_l.
    rewrite drop_app_ge by (rewrite length_replicate; lia).
    rewrite length_replicate. reflexivity.
Qed.

Lemma last_chars_pad_length b : length (Spec.last_chars 6 (Spec.pad_start 6 48 b)) = 6%nat.
Proof.
  unfold Spec.last_chars, Spec.pad_start.
  rewrite length_drop, !length_app, !length_replicate. lia.
Qed.

Lemma last_chars_pad_az09 b :
  Forall (fun c => Spec.is_az09 c = true) b ->
  Forall (fun c => Spec.is_az09 c = true) (Spec.last_chars 6 (Spec.pad_start 6 48 b)).
Proof.
  intros Hb. unfold Spec.last_chars, Spec.pad_start.
  apply Forall_drop, Forall_app. split; [| exact Hb].
  apply Forall_replicate. reflexivity.
Qed.

Lemma digit_value_char d : 0 <= d < 36 -> digit_value (digit_char d) = d.
Proof.
  intros Hd. unfold digit_value, digit_char.
  destruct (Z.ltb_spec d 10).
  - destruct (Z.ltb_spec (48 + d) 97); lia.
  - destruct (Z.ltb_spec (97 + (d - 10)) 97); lia.
Qed.

Lemma to_radix_aux_value radix fuel n acc :
  2 <= radix <= 36 -> 0 <= n < 2 ^ Z.of_nat fuel -> (0 < fuel)%nat ->
  fold_left (fun v c => v * radix + digit_value c) (to_radix_aux radix fuel n acc) 0
  = fold_left (fun v c => v * radix + digit_value c) acc n.
Proof.
  intros Hr. revert n acc. induction fuel as [| fuel IH]; intros n acc Hn Hf; [lia |].
  simpl to_radix_aux.
  assert (Hd : 0 <= n mod radix < 36) by (pose proof (Z.mod_pos_bound n radix); lia).
  assert (Hq : 0 <= n / radix) by (apply Z.div_pos; lia).
  pose proof (Z.div_mod n radix ltac:(lia)) as Hdm.
  destruct (Z.eqb_spec (n / radix) 0) as [H0 | Hne].
  - simpl. rewrite digit_value_char by exact Hd. f_equal.
    rewrite H0 in Hdm. lia.
  - destruct fuel as [| fuel'].
    + change (2 ^ Z.of_nat 1) with 2 in Hn.
      assert (n / radix = 0) by (apply Z.div_small; lia). contradiction.
    + rewrite IH; [| | lia].
      * simpl. rewrite digit_value_char by exact Hd. f_equal. lia.
      * split; [exact Hq |].
        apply Z.div_lt_upper_bound; [lia |].
        rewrite Nat2Z.inj_succ, Z.pow_succ_r in Hn by lia.
        nia.
Qed.

(** The digits that [Number_toString] prints do denote the number: the
    bound on the recursion never cuts a digit off. *)
Lemma Number_toString_value n radix :
  2 <= radix <= 36 -> 0 <= n -> digits_value radix (Number_toString n radix) = n.
Proof.
  intros Hr Hn. unfold digits_value, Number_toString.
  rewrite to_radix_aux_value; [reflexivity | exact Hr | | lia].
  split; [exact Hn |].
  rewrite Nat2Z.inj_succ, Z2Nat.id by apply Z.log2_nonneg.
  destruct (Z.eq_dec n 0) as [-> | Hne]; [simpl; lia |].
  apply Z.log2_spec. lia.
Qed.

End rendering.

(** ** The short id *)

Lemma utf8_ascii s : Forall (fun c => 0 <= c < 128) s -> Spec.utf8 s = s.
Proof.
  induction 1 as [| c s Hc _ IH]; simpl; [reflexivity |].
  destruct (Z.ltb_spec c 128); [| lia]. rewrite IH. reflexivity.
Qed.

Lemma shortId_deriveId s : shortId (Some (KStr s)) = Spec.deriveId s.
Proof.
  unfold shortId, Spec.deriveId, String_of.
  rewrite fnv1a32_spec, toLowerCase_az09 by apply Number_toString_az09.
  apply slice_pad.
Qed.

Lemma deriveId_pattern input : Spec.matches_id_pattern (Spec.deriveId input) = true.
Proof.
  unfold Spec.matches_id_pattern, Spec.deriveId.
  apply andb_true_iff. split.
  - rewrite last_chars_pad_length. reflexivity.
  - apply List.forallb_forall, List.Forall_forall, last_chars_pad_az09, Number_toString_az09.
Qed.

(** C3, as amended. For every string [s] (its UTF-16 code units), the
    short id is a function of [s] alone, matches [^[a-z0-9]{6}$], and equals
    the reference algorithm run over the code units of [s]: FNV-1a with
    offset basis 0x811c9dc5, XOR of each code unit, multiplication by
    16777619 modulo 2^32, the result rendered in lowercase base 36,
    left-padded with '0' to at least six characters and cut to the last six.
    When [s] is ASCII its code units are its bytes, and the short id is the
    byte-wise reference algorithm. *)
Theorem shortId_reference (s : jstring) :
  (forall s', s' = s -> shortId (Some (KStr s')) = shortId (Some (KStr s))) /\
  Spec.matches_id_pattern (shortId (Some (KStr s))) = true /\
  shortId (Some (KStr s)) = Spec.deriveId s /\
  (Forall (fun c => 0 <= c < 128) s ->
   shortId (Some (KStr s)) = Spec.deriveId (Spec.utf8 s)).
Proof.
  split; [intros s' ->; reflexivity |].
  split; [rewrite shortId_deriveId; apply deriveId_pattern |].
  split; [apply shortId_deriveId |].
  intros Hascii. rewrite utf8_ascii by exact Hascii. apply shortId_deriveId.
Qed.

(** The short id of "10001", an ASCII string, by the byte-wise algorithm. *)
Lemma shortId_reference_witness :
  shortId (Some (KStr [49; 48; 48; 48; 49])) = Spec.deriveId (Spec.utf8 [49; 48; 48; 48; 49])
  /\ shortId (Some (KStr [49; 48; 48; 48; 49])) = [116; 101; 99; 115; 122; 51].
Proof.
  split.
  - apply (shortId_reference [49; 48; 48; 48; 49]).
    repeat constructor; lia.
  - vm_compute. reflexivity.
Defined.

(** C3, as stated, fails on a string that is not ASCII: for the one-unit
    string U+20AC the loop XORs the 16-bit code unit 0x20AC, which is no
    byte, and the id differs from the byte-wise FNV-1a id of the string's
    bytes in UTF-8, in UTF-16 (either byte order) and of its low byte. *)
Lemma shortId_not_bytewise :
  let s := [0x20AC] in
  ~ (0 <= 0x20AC < 256) /\
  shortId (Some (KStr s)) = lit "ayipmz" /\
  shortId (Some (KStr s)) <> Spec.deriveId (Spec.utf8 s) /\
  shortId (Some (KStr s)) <> Spec.deriveId (Spec.utf16le s) /\
  shortId (Some (KStr s)) <> Spec.deriveId (Spec.utf16be s) /\
  shortId (Some (KStr s)) <> Spec.deriveId [0xAC].
Proof.
  cbv zeta. split; [lia |].
  split; [vm_compute; reflexivity |].
  repeat split; vm_compute; discriminate.
Qed.

(** ** Staleness *)

Section staleness.
Context {Text : Type}.
Implicit Types (d : gmap string (File Text)) (now : Z).

Lemma needsRefresh_loop_Exists now d names :
  needsRefresh_loop now d names = true <-> Exists (stale now d) names.
Proof.
  induction names as [| n names IH]; simpl.
  - split; [discriminate | intros H; inversion H].
  - rewrite Exists_cons, <- IH. unfold stale, statOrNull.
    destruct (d !! filePath n) as [st |]; [| tauto].
    destruct (Z.gtb_spec (now - mtimeMs st) THREE_DAYS_MS); split; (tauto || lia || idtac).
    intros [H1 | H1]; [lia | exact H1].
Qed.

(** What the code decides: a refresh is due exactly when some source's
    snapshot is absent or its last write is more than [THREE_DAYS_MS]
    milliseconds old, and that constant is 172 800 000, which is two days. *)
Lemma needsRefresh_iff now d :
  needsRefresh now d = true <->
  exists n, n ∈ map fst ENDPOINTS /\
    (d !! filePath n = None \/
     exists st, d !! filePath n = Some st /\ now - mtimeMs st > 2 * 86400000).
Proof.
  unfold needsRefresh. rewrite needsRefresh_loop_Exists, Exists_exists.
  split; intros (n & Hin & Hst); exists n; (split; [exact Hin |]);
    unfold stale in *; destruct (d !! filePath n) as [st |].
  - right. exists st. split; [reflexivity |]. unfold THREE_DAYS_MS in Hst. lia.
  - left. reflexivity.
  - destruct Hst as [Hst | (st' & Heq & Hst)]; [discriminate |].
    injection Heq as <-. unfold THREE_DAYS_MS. lia.
  - exact I.
Qed.

Lemma snapshots_written_at_lookup (txt : Text) mtime n :
  n ∈ map fst ENDPOINTS ->
  snapshots_written_at txt mtime !! filePath n = Some (mkFile txt mtime).
Proof.
  unfold snapshots_written_at. generalize (map fst ENDPOINTS).
  intros names. induction names as [| a names IH]; intros Hin; simpl.
  - inversion Hin.
  - destruct (decide (filePath a = filePath n)) as [-> | Hne].
    + apply lookup_insert_eq.
    + rewrite lookup_insert_ne by exact Hne. apply IH.
      apply elem_of_cons in Hin as [-> | Hin]; [contradiction | exact Hin].
Qed.

(** C4, evaluated: with every snapshot present and written two and a half
    days ago (216 000 000 ms), none is older than three days
    (259 200 000 ms), and [needsRefresh] still answers [true]. *)
Theorem needsRefresh_before_three_days (txt : Text) (now : Z) :
  let d := snapshots_written_at txt (now - 216000000) in
  (forall n, n ∈ map fst ENDPOINTS ->
     exists st, d !! filePath n = Some st /\
                now - mtimeMs st <= 3 * 24 * 60 * 60 * 1000) /\
  needsRefresh now d = true.
Proof.
  intros d. split.
  - intros n Hn. eexists. split; [apply snapshots_written_at_lookup, Hn | simpl; lia].
  - apply needsRefresh_iff. exists "plus-games-list.txt".
    assert (Hin : "plus-games-list.txt" ∈ map fst ENDPOINTS) by (simpl; set_solver).
    split; [exact Hin |].
    right. eexists. split; [apply snapshots_written_at_lookup, Hin | simpl; lia].
Qed.

End staleness.

(** ** The refresh: the four source tasks *)

Section refresh_sources.
Context {Text S : Type} `{!Json Text} `{!LocaleCompare} `{!IsoDate}.
Implicit Types (env : Env Text) (ls : StatusMap * World Text S) (w : World Text S).

Local Abbreviation WL := (StatusMap * World Text S)%type.

Lemma sources_effect_cons env entry entries ls :
  sources_effect env (entry :: entries) ls
  = sources_effect env entries (source_effect env entry ls).
Proof. reflexivity. Qed.

Lemma settle_refresh_source env entry ls :
  settle (refresh_source env entry) ls
  = (Return (source_result env entry), source_effect env entry ls).
Proof.
  destruct entry as [fname url], ls as [st w].
  unfold settle, refresh_source, source_result, source_effect, fetchRaw, writeFileRaw,
    set_status, outer, bind, emit, modify, ret, throw; simpl.
  destruct (http_get env url); reflexivity.
Qed.

Lemma run_sources env entries ls :
  map_m (fun entry => settle (refresh_source env entry)) entries ls
  = (Return (map (source_result env) entries), sources_effect env entries ls).
Proof.
  revert ls. induction entries as [| entry entries IH]; intros ls; [reflexivity |].
  simpl. unfold bind at 1. rewrite settle_refresh_source.
  unfold bind at 1. rewrite IH. reflexivity.
Qed.

Lemma any_rejected_iff env entries :
  existsb is_rejected (map (source_result env) entries) = true <->
  exists entry e, entry ∈ entries /\ http_get env entry.2 = inl e.
Proof.
  induction entries as [| entry entries IH]; simpl.
  - split; [discriminate | intros (? & ? & Hin & _); inversion Hin].
  - rewrite orb_true_iff, IH. unfold source_result. split.
    + intros [Hrej | (entry' & e & Hin & He)].
      * destruct (http_get env entry.2) as [e |] eqn:He; [| discriminate].
        exists entry, e. split; [left | exact He].
      * exists entry', e. split; [right; exact Hin | exact He].
    + intros (entry' & e & Hin & He). apply elem_of_cons in Hin as [-> | Hin].
      * left. rewrite He. reflexivity.
      * right. exists entry', e. split; assumption.
Qed.

(** The tasks leave the flag, the listeners and the subscriber's state
    alone. *)
Lemma sources_effect_frame env entries ls :
  isRefreshing (sources_effect env entries ls).2 = isRefreshing ls.2 /\
  listeners (sources_effect env entries ls).2 = listeners ls.2 /\
  app (sources_effect env entries ls).2 = app ls.2.
Proof.
  revert ls. induction entries as [| entry entries IH]; intros ls; [done |].
  unfold sources_effect in *. simpl. destruct (IH (source_effect env entry ls)) as (-> & -> & ->).
  unfold source_effect. destruct (http_get env entry.2); done.
Qed.

Lemma sources_effect_trace env entries ls :
  trace (sources_effect env entries ls).2
  = trace ls.2 ++ concat (map (source_events env) entries).
Proof.
  revert ls. induction entries as [| entry entries IH]; intros ls.
  - simpl. by rewrite app_nil_r.
  - unfold sources_effect in *. simpl. rewrite IH.
    unfold source_effect, source_events.
    destruct (http_get env entry.2); simpl; by rewrite <- !app_assoc.
Qed.

Lemma elem_of_map_fst (entry : string * string) entries :
  entry ∈ entries -> entry.1 ∈ map fst entries.
Proof. rewrite !list_elem_of_In. apply in_map. Qed.

Lemma filePath_inj a b : filePath a = filePath b -> a = b.
Proof. unfold filePath. intros Heq. by simplify_eq/=. Qed.

(** A file that no successful task names keeps its content. *)
Lemma sources_effect_disk_other env entries ls p :
  (forall entry data, entry ∈ entries -> http_get env entry.2 = inr data ->
                      filePath entry.1 <> p) ->
  disk (sources_effect env entries ls).2 !! p = disk ls.2 !! p.
Proof.
  revert ls. induction entries as [| entry entries IH]; intros ls Hp; [done |].
  unfold sources_effect in *. simpl. rewrite IH.
  - unfold source_effect. destruct (http_get env entry.2) as [e | data] eqn:He; [done |].
    simpl. apply lookup_insert_ne. apply (Hp entry data); [left | exact He].
  - intros entry' data Hin. apply Hp. by right.
Qed.

(** The file of a task that succeeded holds the fetched text. *)
Lemma sources_effect_disk_written env entries ls fname url data :
  NoDup (map fst entries) ->
  (fname, url) ∈ entries -> http_get env url = inr data ->
  disk (sources_effect env entries ls).2 !! filePath fname
  = Some (mkFile data (clock env (filePath fname))).
Proof.
  revert ls. induction entries as [| entry entries IH]; intros ls Hnd Hin Hget.
  - inversion Hin.
  - apply NoDup_cons in Hnd as [Hfresh Hnd].
    rewrite sources_effect_cons.
    apply elem_of_cons in Hin as [<- | Hin]; [| by apply IH].
    rewrite sources_effect_disk_other.
    + unfold source_effect. simpl. rewrite Hget. simpl. apply lookup_insert_eq.
    + intros entry' data' Hin' _ Heq. apply filePath_inj in Heq.
      apply Hfresh. rewrite <- Heq. by apply (elem_of_map_fst entry').
Qed.

(** The status map gets a line for each task that succeeded and nothing
    for a task that failed. *)
Lemma sources_effect_status_other env entries ls key :
  (forall entry data, entry ∈ entries -> http_get env entry.2 = inr data ->
                      entry.1 <> key) ->
  (sources_effect env entries ls).1 !! key = ls.1 !! key.
Proof.
  revert ls. induction entries as [| entry entries IH]; intros ls Hp; [done |].
  unfold sources_effect in *. simpl. rewrite IH.
  - unfold source_effect. destruct (http_get env entry.2) as [e | data] eqn:He; [done |].
    simpl. apply lookup_insert_ne. apply (Hp entry data); [left | exact He].
  - intros entry' data Hin. apply Hp. by right.
Qed.

Lemma sources_effect_status_written env entries ls fname url data :
  NoDup (map fst entries) ->
  (fname, url) ∈ entries -> http_get env url = inr data ->
  (sources_effect env entries ls).1 !! fname
  = Some (fname +:+ " refreshed on " +:+ toISOString (clock env fname) +:+ " successfully").
Proof.
  revert ls. induction entries as [| entry entries IH]; intros ls Hnd Hin Hget.
  - inversion Hin.
  - apply NoDup_cons in Hnd as [Hfresh Hnd].
    rewrite sources_effect_cons.
    apply elem_of_cons in Hin as [<- | Hin]; [| by apply IH].
    rewrite sources_effect_status_other.
    + unfold source_effect. simpl. rewrite Hget. simpl. apply lookup_insert_eq.
    + intros entry' data' Hin' _ Heq.
      apply Hfresh. rewrite <- Heq. by apply (elem_of_map_fst entry').
Qed.

End refresh_sources.

(** ** The refresh: entry, exit and the partial-failure path *)

Section monad_facts.
Context {St A B : Type}.

Lemma bind_run (m : M St A) (k : A -> M St B) s a s' :
  m s = (Return a, s') -> bind m k s = k a s'.
Proof. unfold bind. intros ->. reflexivity. Qed.

Lemma bind_throw (m : M St A) (k : A -> M St B) s e s' :
  m s = (Throw e, s') -> bind m k s = (Throw e, s').
Proof. unfold bind. intros ->. reflexivity. Qed.

(** A handler that always returns makes the whole [try ... catch] return. *)
Lemma try_catch_returns (m : M St A) (h : Exn -> M St A) s :
  (forall e s1, exists a s2, h e s1 = (Return a, s2)) ->
  exists a s2, try_catch m h s = (Return a, s2).
Proof.
  intros Hh. unfold try_catch. destruct (m s) as [[a | e] s1]; [by eauto | apply Hh].
Qed.

End monad_facts.

Lemma ENDPOINTS_NoDup : NoDup (map fst ENDPOINTS).
Proof. apply (bool_decide_unpack _). vm_compute. exact I. Qed.

Lemma all_txt_not_source fname url : (fname, url) ∈ ENDPOINTS -> fname <> "all.txt".
Proof.
  intros Hin ->. apply elem_of_map_fst in Hin. revert Hin.
  apply (bool_decide_unpack _). vm_compute. exact I.
Qed.

Section refresh_paths.
Context {Text S : Type} `{!Json Text} `{!LocaleCompare} `{!IsoDate}.
Implicit Types (env : Env Text) (ls : StatusMap * World Text S) (w : World Text S).

Local Abbreviation W := (World Text S).
Local Abbreviation WL := (StatusMap * World Text S)%type.

(** The guard of [refreshOnce]: a call made while the flag is set returns
    the in-progress signal and leaves the world, its trace included, as it
    was. *)
Lemma refreshOnce_guard (env : Env Text) (w : W) :
  isRefreshing w = true -> refreshOnce env w = (Return InProgress, w).
Proof.
  intros Hflag. unfold refreshOnce.
  erewrite bind_run by reflexivity. rewrite Hflag. reflexivity.
Qed.

(** Past the guard, [refreshOnce] is its [try]/[catch]/[finally] on a
    world whose flag is set. *)
Lemma refreshOnce_enter (env : Env Text) (w : W) :
  isRefreshing w = false ->
  refreshOnce env w
  = with_local (∅ : StatusMap)
      (try_finally (try_catch (refresh_try env) refresh_catch)
                   (outer (set_isRefreshing false)))
      (with_flag true w).
Proof.
  intros Hflag. unfold refreshOnce.
  erewrite bind_run by reflexivity. rewrite Hflag.
  erewrite bind_run by reflexivity. reflexivity.
Qed.

(** The [finally] block: whatever the guarded block does, and however it
    exits, the flag is clear afterwards and the outcome is the block's. *)
Lemma finally_clears_flag {A} (m : M WL A) (l0 : StatusMap) (w : W) :
  exists ls,
    m (l0, w) = ((with_local l0 (try_finally m (outer (set_isRefreshing false))) w).1, ls) /\
    (with_local l0 (try_finally m (outer (set_isRefreshing false))) w).2 = with_flag false ls.2.
Proof.
  unfold with_local, try_finally, outer, set_isRefreshing, modify.
  destruct (m (l0, w)) as [r ls]. exists ls. split; reflexivity.
Qed.

Lemma refresh_catch_returns (e : Exn) (ls : WL) :
  exists r ls', refresh_catch e ls = (Return r, ls') /\ r = Failed e ls.1.
Proof.
  unfold refresh_catch.
  erewrite bind_run by reflexivity. erewrite bind_run by reflexivity.
  eexists _, _. split; reflexivity.
Qed.

(** When some source task is rejected: nothing is merged, no listener is
    called, and the result reports the rejection with the status map the
    tasks left. *)
Lemma refresh_try_rejected (env : Env Text) (ls : WL) :
  existsb is_rejected (map (source_result env) ENDPOINTS) = true ->
  refresh_try env ls
  = (Return (Done true (sources_effect env ENDPOINTS ls).1), sources_effect env ENDPOINTS ls).
Proof.
  intros Hrej. unfold refresh_try. destruct ls as [st w].
  erewrite bind_run by reflexivity. cbn [fst snd].
  erewrite bind_run by apply run_sources.
  rewrite Hrej. cbn [negb].
  erewrite bind_run by reflexivity.
  erewrite bind_run by reflexivity. reflexivity.
Qed.

Lemma refreshOnce_rejected (env : Env Text) (w : W) :
  isRefreshing w = false ->
  (exists entry e, entry ∈ ENDPOINTS /\ http_get env entry.2 = inl e) ->
  refreshOnce env w
  = (Return (Done true (sources_effect env ENDPOINTS (∅, with_flag true w)).1),
     with_flag false (sources_effect env ENDPOINTS (∅, with_flag true w)).2).
Proof.
  intros Hflag Hrej. apply any_rejected_iff in Hrej.
  rewrite refreshOnce_enter by exact Hflag.
  unfold with_local, try_finally, try_catch.
  rewrite refresh_try_rejected by exact Hrej. reflexivity.
Qed.

End refresh_paths.

(** ** The refresh: the merge and the notification *)

Lemma map_m_pure {St A B} (f : A -> M St B) (g : A -> Exn + B) (l : list A) (s : St) :
  (forall x, f x s = (outcome_of (g x), s)) ->
  map_m f l s = (outcome_of (mapE g l), s).
Proof.
  intros Hf. induction l as [| x l IH]; [reflexivity |].
  simpl. unfold bind at 1. rewrite Hf.
  destruct (g x) as [e | y]; [reflexivity |]. simpl.
  unfold bind at 1. rewrite IH.
  destruct (mapE g l) as [e | ys]; reflexivity.
Qed.

Lemma mapE_all {A B} (f : A -> Exn + B) (g : A -> B) (l : list A) :
  (forall x, x ∈ l -> f x = inr (g x)) -> mapE f l = inr (map g l).
Proof.
  induction l as [| x l IH]; intros Hf; [reflexivity |].
  simpl. rewrite Hf by left. rewrite IH; [reflexivity |].
  intros y Hy. apply Hf. by right.
Qed.

Section refresh_merge.
Context {Text S : Type} `{!Json Text} `{!LocaleCompare} `{!IsoDate}.
Implicit Types (env : Env Text) (ls : StatusMap * World Text S) (w : World Text S).

Local Abbreviation W := (World Text S).
Local Abbreviation WL := (StatusMap * World Text S)%type.

Lemma generateAllMerged_run (env : Env Text) (w : W) :
  generateAllMerged env w
  = match merged_payload (disk w) with
    | inl e => (Throw e, w)
    | inr payload =>
        (Return tt,
         mkWorld (isRefreshing w) (listeners w)
                 (<[filePath "all.txt" := mkFile (JSON_stringify payload)
                                                 (clock env (filePath "all.txt"))]>
                    (disk w))
                 (app w)
                 (trace w ++ [EvWrite (filePath "all.txt") (JSON_stringify payload)]))
    end.
Proof.
  unfold generateAllMerged, merged_payload.
  unfold bind at 1.
  rewrite (map_m_pure (fun n => readFile (filePath n)) (read_snapshot (disk w))); cycle 1.
  { intros n. unfold readFile, read_snapshot. by destruct (disk w !! filePath n). }
  destruct (mapE (read_snapshot (disk w)) (map fst ENDPOINTS)) as [e | rawArr]; [reflexivity |].
  simpl outcome_of. cbv iota. unfold bind at 1.
  rewrite (map_m_pure parse parse_snapshot); cycle 1.
  { intros txt. unfold parse, parse_snapshot. by destruct (JSON_parse txt). }
  destruct (mapE parse_snapshot rawArr) as [e | parsed]; [reflexivity |].
  simpl outcome_of. cbv iota. unfold bind at 1.
  rewrite (map_m_pure flatten_doc doc_games); cycle 1.
  { intros doc. by destruct doc. }
  destruct (mapE doc_games parsed) as [e | perDoc]; [reflexivity |].
  reflexivity.
Qed.

Lemma for_each_call_listener st (w : W) fns from :
  for_each (fun ifn => call_listener ifn.1 ifn.2)
           (imap (fun i fn => ((from + i)%nat, fn)) fns) (st, w)
  = (match (notify_run st fns (app w)).1.1 with
     | Some e => Throw e
     | None => Return tt
     end,
     (st, mkWorld (isRefreshing w) (listeners w) (disk w)
                  (notify_run st fns (app w)).1.2
                  (trace w ++ notify_events st from (notify_run st fns (app w)).2))).
Proof.
  revert w from. induction fns as [| fn fns IH]; intros w from.
  - simpl. unfold ret, notify_events. simpl. rewrite app_nil_r. by destruct w.
  - simpl. unfold bind at 1, call_listener at 1. cbn [fst snd].
    rewrite Nat.add_0_r.
    destruct (fn st (app w)) as [[e |] a'] eqn:Hfn; [reflexivity |].
    rewrite (imap_ext _ (fun i fn => ((Datatypes.S from + i)%nat, fn)))
      by (intros i x _; simpl; f_equal; lia).
    rewrite IH. cbn [app trace isRefreshing listeners disk].
    destruct (notify_run st fns a') as [[r a''] k]. cbn [fst snd].
    unfold notify_events. simpl. rewrite <- app_assoc. reflexivity.
Qed.

Lemma notify_listeners_run st (w : W) :
  notify_listeners (st, w)
  = (match (notify_run st (listeners w) (app w)).1.1 with
     | Some e => Throw e
     | None => Return tt
     end,
     (st, mkWorld (isRefreshing w) (listeners w) (disk w)
                  (notify_run st (listeners w) (app w)).1.2
                  (trace w ++ notify_events st 0 (notify_run st (listeners w) (app w)).2))).
Proof.
  unfold notify_listeners. erewrite bind_run by reflexivity.
  cbn [fst snd]. apply (for_each_call_listener st w (listeners w) 0).
Qed.

End refresh_merge.

Lemma mapE_map {A B C} (f : B -> Exn + C) (h : A -> B) (l : list A) :
  mapE f (map h l) = mapE (fun x => f (h x)) l.
Proof.
  induction l as [| x l IH]; [reflexivity |]. simpl. rewrite IH. reflexivity.
Qed.

Section refresh_success.
Context {Text S : Type} `{!Json Text} `{!LocaleCompare} `{!IsoDate}.
Implicit Types (env : Env Text) (ls : StatusMap * World Text S) (w : World Text S).

Local Abbreviation W := (World Text S).
Local Abbreviation WL := (StatusMap * World Text S)%type.

Lemma notify_guarded_run st (w : W) :
  try_catch notify_listeners
    (fun e => outer (console_error ("[refresher] listener error: " +:+ e))) (st, w)
  = (Return tt, (st, notified_world st w)).
Proof.
  unfold try_catch. rewrite notify_listeners_run. unfold notified_world.
  destruct (notify_run st (listeners w) (app w)) as [[[e |] a'] k]; cbn [fst snd].
  - reflexivity.
  - unfold listener_error_log. rewrite app_nil_r. reflexivity.
Qed.

Lemma refresh_try_settled (env : Env Text) (ls : WL) :
  existsb is_rejected (map (source_result env) ENDPOINTS) = false ->
  refresh_try env ls
  = match merged_payload (disk (sources_effect env ENDPOINTS ls).2) with
    | inl e => (Throw e, sources_effect env ENDPOINTS ls)
    | inr payload =>
        (Return (Done false (all_status env (sources_effect env ENDPOINTS ls).1)),
         (all_status env (sources_effect env ENDPOINTS ls).1,
          notified_world (all_status env (sources_effect env ENDPOINTS ls).1)
            (merged_world env (sources_effect env ENDPOINTS ls).2 payload)))
    end.
Proof.
  intros Hok. unfold refresh_try. destruct ls as [st w].
  erewrite bind_run by reflexivity. cbn [fst snd].
  erewrite bind_run by apply run_sources.
  rewrite Hok. cbn [negb].
  destruct (sources_effect env ENDPOINTS (st, w)) as [st4 w4]. cbn [fst snd].
  unfold bind at 1. unfold bind at 1. unfold outer at 1. cbn [fst snd].
  rewrite generateAllMerged_run.
  destruct (merged_payload (disk w4)) as [e | payload]; [reflexivity |].
  erewrite bind_run by reflexivity.
  cbn [fst snd]. rewrite notify_guarded_run. reflexivity.
Qed.

Lemma refreshOnce_settled (env : Env Text) (w : W) :
  isRefreshing w = false ->
  (forall entry, entry ∈ ENDPOINTS -> exists data, http_get env entry.2 = inr data) ->
  refreshOnce env w
  = match merged_payload (disk (sources_effect env ENDPOINTS (∅, with_flag true w)).2) with
    | inl e =>
        (Return (Failed e (sources_effect env ENDPOINTS (∅, with_flag true w)).1),
         with_flag false
           (failed_world (sources_effect env ENDPOINTS (∅, with_flag true w)).2 e))
    | inr payload =>
        (Return (Done false
                   (all_status env (sources_effect env ENDPOINTS (∅, with_flag true w)).1)),
         with_flag false
           (notified_world
              (all_status env (sources_effect env ENDPOINTS (∅, with_flag true w)).1)
              (merged_world env (sources_effect env ENDPOINTS (∅, with_flag true w)).2
                            payload)))
    end.
Proof.
  intros Hflag Hall.
  assert (Hok : existsb is_rejected (map (source_result env) ENDPOINTS) = false).
  { apply not_true_is_false. intros Hrej. apply any_rejected_iff in Hrej.
    destruct Hrej as (entry & e & Hin & He). destruct (Hall entry Hin) as [data Hd].
    congruence. }
  rewrite refreshOnce_enter by exact Hflag.
  unfold with_local, try_finally, try_catch.
  rewrite refresh_try_settled by exact Hok.
  destruct (merged_payload _) as [e | payload]; reflexivity.
Qed.

(** The payload that is merged when every source answered with a text
    that parses. *)
Lemma merged_payload_fetched (env : Env Text) (ls : WL)
    (body : string -> Text) (doc : string -> Doc) :
  (forall entry, entry ∈ ENDPOINTS ->
     http_get env entry.2 = inr (body entry.2) /\ JSON_parse (body entry.2) = Some (doc entry.2)) ->
  merged_payload (disk (sources_effect env ENDPOINTS ls).2)
  = match mapE doc_games (map (fun entry => doc entry.2) ENDPOINTS) with
    | inl e => inl e
    | inr perDoc => inr (all_payload perDoc)
    end.
Proof.
  intros Hall. unfold merged_payload.
  rewrite mapE_map.
  rewrite (mapE_all _ (fun entry => body entry.2)); cycle 1.
  { intros [fname url] Hin. unfold read_snapshot.
    rewrite (sources_effect_disk_written env ENDPOINTS ls fname url (body url));
      [reflexivity | apply ENDPOINTS_NoDup | exact Hin | apply (Hall _ Hin)]. }
  rewrite mapE_map.
  rewrite (mapE_all _ (fun entry => doc entry.2)); [reflexivity |].
  intros entry Hin. unfold parse_snapshot.
  destruct (Hall entry Hin) as [_ ->]. reflexivity.
Qed.

(** While the refresh is in flight the flag stays set: the [try] block
    runs on a world whose flag is set ([refreshOnce_enter]) and never
    changes it, so a call that arrives meanwhile meets the guard. *)
Lemma refresh_try_keeps_flag (env : Env Text) (ls : WL) :
  isRefreshing (refresh_try env ls).2.2 = isRefreshing ls.2.
Proof.
  destruct (sources_effect_frame env ENDPOINTS ls) as (Hflag & _ & _).
  destruct (existsb is_rejected (map (source_result env) ENDPOINTS)) eqn:Hrej.
  - rewrite refresh_try_rejected by exact Hrej. exact Hflag.
  - rewrite refresh_try_settled by exact Hrej.
    destruct (merged_payload _); exact Hflag.
Qed.

End refresh_success.

(** ** The sample instances satisfy the laws of their interfaces *)

Lemma code_unit_compare_flip a b :
  Z.sgn (code_unit_compare b a) = - Z.sgn (code_unit_compare a b).
Proof.
  revert b. induction a as [| x a IH]; intros [| y b]; simpl; try reflexivity.
  destruct (Z.ltb_spec x y), (Z.ltb_spec y x); try reflexivity; try lia. apply IH.
Qed.

Lemma code_unit_compare_trans a b c :
  code_unit_compare a b <= 0 -> code_unit_compare b c <= 0 -> code_unit_compare a c <= 0.
Proof.
  revert b c. induction a as [| x a IH]; intros [| y b] [| z c]; simpl; try lia.
  destruct (Z.ltb_spec x y), (Z.ltb_spec y x), (Z.ltb_spec y z), (Z.ltb_spec z y),
    (Z.ltb_spec x z), (Z.ltb_spec z x); try lia.
  apply IH.
Qed.

Lemma code_unit_collation : @Collation code_unit_locale.
Proof.
  split; [exact code_unit_compare_flip | exact code_unit_compare_trans].
Qed.

Lemma sample_round_trip : @JsonRoundTrip SampleText sample_json.
Proof. intros groups. reflexivity. Qed.

(** ** The refresh: what the source tasks write and record *)

Section refresh_claims.
Context {Text S : Type} `{!Json Text} `{!LocaleCompare} `{!IsoDate}.
Implicit Types (env : Env Text) (ls : StatusMap * World Text S) (w : World Text S).

Local Abbreviation W := (World Text S).

Lemma source_events_write (env : Env Text) entries p data :
  EvWrite p data ∈ concat (map (source_events env) entries) <->
  exists entry, entry ∈ entries /\ http_get env entry.2 = inr data /\ p = filePath entry.1.
Proof.
  induction entries as [| entry entries IH]; simpl.
  - split; [intros Hin; inversion Hin | intros (? & Hin & _); inversion Hin].
  - rewrite elem_of_app, IH. unfold source_events. split.
    + intros [Hin | (entry' & Hin & Hrest)].
      * destruct (http_get env entry.2) as [e | data'] eqn:Hget.
        -- apply list_elem_of_singleton in Hin. discriminate.
        -- apply elem_of_cons in Hin as [Hin | Hin]; [discriminate |].
           apply list_elem_of_singleton in Hin. injection Hin as -> ->.
           exists entry. split; [left | split; [exact Hget | reflexivity]].
      * exists entry'. split; [by right | exact Hrest].
    + intros (entry' & Hin & Hget & ->). apply elem_of_cons in Hin as [-> | Hin].
      * left. rewrite Hget. right. left.
      * right. exists entry'. done.
Qed.

Lemma source_events_no_notify (env : Env Text) entries i arg :
  EvNotify i arg ∉ concat (map (source_events env) entries).
Proof.
  induction entries as [| entry entries IH]; simpl.
  - intros Hin. inversion Hin.
  - rewrite elem_of_app. intros [Hin | Hin]; [| by apply IH].
    unfold source_events in Hin.
    destruct (http_get env entry.2);
      repeat (apply elem_of_cons in Hin as [Hin | Hin]; [discriminate |]);
      inversion Hin.
Qed.

Lemma sources_status_origin (env : Env Text) entries (ls : StatusMap * W) key :
  is_Some ((sources_effect env entries ls).1 !! key) ->
  is_Some (ls.1 !! key) \/
  exists url data, (key, url) ∈ entries /\ http_get env url = inr data.
Proof.
  revert ls. induction entries as [| [fname url] entries IH]; intros ls Hsome; [by left |].
  rewrite sources_effect_cons in Hsome. apply IH in Hsome as [Hsome | Hex].
  - unfold source_effect in Hsome. simpl in Hsome.
    destruct (http_get env url) as [e | data] eqn:Hget; [by left |].
    simpl in Hsome. destruct (decide (fname = key)) as [-> | Hne].
    + right. exists url, data. split; [left | exact Hget].
    + rewrite lookup_insert_ne in Hsome by exact Hne. by left.
  - destruct Hex as (url' & data & Hin & Hget). right. exists url', data.
    split; [by right | exact Hget].
Qed.

(** The keys of the status map after the tasks: the names of the sources
    whose task succeeded. *)
Lemma sources_status_keys (env : Env Text) (w : W) key :
  is_Some ((sources_effect env ENDPOINTS (∅, w)).1 !! key) <->
  exists url data, (key, url) ∈ ENDPOINTS /\ http_get env url = inr data.
Proof.
  split.
  - intros Hsome. apply sources_status_origin in Hsome as [Hsome | Hex]; [| exact Hex].
    simpl in Hsome. rewrite lookup_empty in Hsome. by destruct Hsome.
  - intros (url & data & Hin & Hget).
    erewrite sources_effect_status_written; [done | apply ENDPOINTS_NoDup | exact Hin | exact Hget].
Qed.

(** A source whose fetch failed is named by no task that succeeded. *)
Lemma failed_source_unique (env : Env Text) fname url e :
  (fname, url) ∈ ENDPOINTS -> http_get env url = inl e ->
  forall entry data, entry ∈ ENDPOINTS -> http_get env entry.2 = inr data -> entry.1 <> fname.
Proof.
  intros Hin Hfail [fname' url'] data Hin' Hget Heq. simpl in *. subst fname'.
  assert (url' = url) as ->; [| congruence].
  pose proof ENDPOINTS_NoDup as Hnd. revert Hin Hin' Hnd. generalize ENDPOINTS.
  intros l Hin Hin' Hnd. induction l as [| entry l IH]; [inversion Hin |].
  apply NoDup_cons in Hnd as [Hfresh Hnd].
  apply elem_of_cons in Hin as [<- | Hin], Hin' as [Heq | Hin'].
  - by injection Heq.
  - exfalso. apply Hfresh. apply (elem_of_map_fst (fname, url')), Hin'.
  - subst entry. exfalso. apply Hfresh. apply (elem_of_map_fst (fname, url)), Hin.
  - by apply IH.
Qed.

End refresh_claims.

(** ** The refresh: the claims *)

Section refresh_theorems.
Context {Text : Type} `{!Json Text} `{!LocaleCompare} `{!IsoDate}.

(** C1. If at least one of the four source fetches fails during
    [refreshOnce], the merged file all.txt is not regenerated (no write to
    it, its entry in the directory is unchanged), no listener is called
    and the cache of routes.js is left as it was, while every source whose
    fetch succeeded has its snapshot file written with the fetched text. *)
Theorem refresh_partial_failure (env : Env Text) (w : World Text Cache) :
  isRefreshing w = false ->
  (exists entry e, entry ∈ ENDPOINTS /\ http_get env entry.2 = inl e) ->
  exists st w' evs,
    refreshOnce env w = (Return (Done true st), w') /\
    trace w' = trace w ++ evs /\
    (forall data, EvWrite (filePath "all.txt") data ∉ evs) /\
    disk w' !! filePath "all.txt" = disk w !! filePath "all.txt" /\
    (forall i arg, EvNotify i arg ∉ evs) /\
    app w' = app w /\
    (forall fname url data,
       (fname, url) ∈ ENDPOINTS -> http_get env url = inr data ->
       EvWrite (filePath fname) data ∈ evs /\
       content <$> disk w' !! filePath fname = Some data).
Proof.
  intros Hflag Hrej. rewrite refreshOnce_rejected by assumption.
  eexists _, _, (sources_events env). split; [reflexivity |].
  cbn [with_flag trace disk app].
  split; [by rewrite sources_effect_trace |].
  split.
  { intros data Hin. apply source_events_write in Hin as ([fname url] & Hin & _ & Heq).
    apply filePath_inj in Heq. by apply (all_txt_not_source fname url). }
  split.
  { rewrite sources_effect_disk_other; [reflexivity |].
    intros [fname url] data Hin _ Heq. apply filePath_inj in Heq.
    by apply (all_txt_not_source fname url). }
  split; [intros i arg; apply source_events_no_notify |].
  split; [apply sources_effect_frame |].
  intros fname url data Hin Hget. split.
  - apply source_events_write. exists (fname, url). done.
  - erewrite sources_effect_disk_written; [done | apply ENDPOINTS_NoDup | exact Hin | exact Hget].
Qed.

(** C2. A call of [refreshOnce] made while a refresh is in flight (the
    flag is set) returns the in-progress signal at once and does nothing:
    the world afterwards is the world before, so no file is written, no
    listener is called and nothing is added to the trace; the result
    carries no status map. *)
Theorem refresh_mutual_exclusion {S : Type} (env : Env Text) (w : World Text S) :
  isRefreshing w = true ->
  refreshOnce env w = (Return InProgress, w) /\
  trace (refreshOnce env w).2 = trace w /\
  disk (refreshOnce env w).2 = disk w /\
  app (refreshOnce env w).2 = app w.
Proof.
  intros Hflag. rewrite refreshOnce_guard by exact Hflag. done.
Qed.

(** C5. Every execution of [refreshOnce] that enters the refresh (the
    flag was clear, so it sets it) returns to its caller with the flag
    clear again, on every exit path: nothing is thrown to the caller, and
    whether the [try] block completed or an exception inside it was caught,
    the [finally] block has run. *)
Theorem refresh_clears_flag {S : Type} (env : Env Text) (w : World Text S) :
  isRefreshing w = false ->
  exists r w',
    refreshOnce env w = (Return r, w') /\ r <> InProgress /\ isRefreshing w' = false.
Proof.
  intros Hflag. rewrite refreshOnce_enter by exact Hflag.
  destruct (finally_clears_flag (try_catch (refresh_try env) refresh_catch) ∅ (with_flag true w))
    as (ls & Hrun & Hfin).
  destruct (with_local _ _ _) as [o w'] eqn:Hout. simpl in Hrun, Hfin. subst w'.
  assert (Hret : exists r, o = Return r /\ r <> InProgress).
  { revert Hrun. unfold try_catch.
    destruct (refresh_try env (∅, with_flag true w)) as [[r | e] ls1] eqn:Htry.
    - intros [= <- _]. exists r. split; [reflexivity |].
      revert Htry. unfold refresh_try.
      erewrite bind_run by reflexivity.
      erewrite bind_run by apply run_sources.
      match goal with |- bind ?m _ ?s = _ -> _ => destruct (m s) as [[[] | e'] ls2] eqn:Hmid end.
      + erewrite bind_run by exact Hmid. erewrite bind_run by reflexivity.
        intros [= <- _]. discriminate.
      + erewrite bind_throw by exact Hmid. discriminate.
    - destruct (refresh_catch_returns e ls1) as (r & ls' & -> & ->).
      intros [= <- _]. eexists. split; [reflexivity | discriminate]. }
  destruct Hret as (r & -> & Hr). exists r, (with_flag false ls.2). done.
Qed.

(** C6, as amended. During [refreshOnce], for every source whose fetch
    fails, no entry for that source is put in the returned status map (the
    map has an entry exactly for the sources whose fetch succeeded; the
    failure shows only in the [anyRejected] flag of the result), and no
    write is performed for that source. *)
Theorem refresh_failed_source {S : Type} (env : Env Text) (w : World Text S)
    (fname url : string) (e : Exn) :
  isRefreshing w = false ->
  (fname, url) ∈ ENDPOINTS -> http_get env url = inl e ->
  exists st w' evs,
    refreshOnce env w = (Return (Done true st), w') /\
    trace w' = trace w ++ evs /\
    st !! fname = None /\
    (forall key, is_Some (st !! key) <->
                 exists url' data, (key, url') ∈ ENDPOINTS /\ http_get env url' = inr data) /\
    (forall data, EvWrite (filePath fname) data ∉ evs) /\
    disk w' !! filePath fname = disk w !! filePath fname.
Proof.
  intros Hflag Hin Hfail.
  rewrite refreshOnce_rejected; [| exact Hflag | by exists (fname, url), e].
  eexists _, _, (sources_events env). split; [reflexivity |].
  cbn [with_flag trace disk].
  split; [by rewrite sources_effect_trace |].
  split.
  { rewrite sources_effect_status_other; [apply lookup_empty |].
    apply (failed_source_unique env fname url e Hin Hfail). }
  split; [apply sources_status_keys |].
  split.
  { intros data Hw. apply source_events_write in Hw as (entry & Hin' & Hget & Heq).
    apply filePath_inj in Heq.
    by apply (failed_source_unique env fname url e Hin Hfail entry data). }
  rewrite sources_effect_disk_other; [reflexivity |].
  intros entry data Hin' Hget Heq. apply filePath_inj in Heq.
  by apply (failed_source_unique env fname url e Hin Hfail entry data).
Qed.

End refresh_theorems.

(** ** The refresh: notification *)

Section notification.
Context {Text S : Type} `{!Json Text} `{!LocaleCompare} `{!IsoDate}.
Implicit Types (env : Env Text) (ls : StatusMap * World Text S) (w : World Text S).

Implicit Types (st : StatusMap) (fns : list (Listener S)) (a : S).

Lemma doc_games_ok grouped : grouped <> DOther -> doc_games grouped = inr (games_of_doc grouped).
Proof. by destruct grouped. Qed.

(** Listeners that do not throw are all called. *)
Lemma notify_run_none st fns a :
  (notify_run st fns a).1.1 = None -> (notify_run st fns a).2 = length fns.
Proof.
  revert a. induction fns as [| fn fns IH]; intros a; [reflexivity |].
  simpl. destruct (fn st a) as [[e |] a']; [discriminate |].
  specialize (IH a'). destruct (notify_run st fns a') as [[r a''] k].
  simpl in *. intros Hr. by rewrite IH.
Qed.

Lemma notify_run_quiet st fns a :
  (forall fn a', fn ∈ fns -> (fn st a').1 = None) -> (notify_run st fns a).1.1 = None.
Proof.
  revert a. induction fns as [| fn fns IH]; intros a Hquiet; [reflexivity |].
  simpl. pose proof (Hquiet fn a ltac:(left)) as Hfn.
  destruct (fn st a) as [[e |] a']; [discriminate |].
  assert (IH' : (notify_run st fns a').1.1 = None).
  { apply IH. intros fn' a'' Hin. apply Hquiet. by right. }
  destruct (notify_run st fns a') as [[r a''] k]. exact IH'.
Qed.

(** The loop stops at the first listener that throws: the ones registered
    after it are not called. *)
Lemma notify_run_stops st pre fn post a e :
  (notify_run st pre a).1.1 = None ->
  (fn st (notify_run st pre a).1.2).1 = Some e ->
  (notify_run st (pre ++ fn :: post) a).1.1 = Some e /\
  (notify_run st (pre ++ fn :: post) a).2 = Datatypes.S (length pre) /\
  (notify_run st (pre ++ fn :: post) a).1.2 = (fn st (notify_run st pre a).1.2).2.
Proof.
  revert a. induction pre as [| fn0 pre IH]; intros a; simpl.
  - intros _ Hfn. destruct (fn st a) as [[e' |] a']; [| discriminate].
    simpl in *. by injection Hfn as ->.
  - destruct (fn0 st a) as [[e0 |] a0]; [discriminate |].
    specialize (IH a0).
    destruct (notify_run st pre a0) as [[r a1] k].
    destruct (notify_run st (pre ++ fn :: post) a0) as [[r' a1'] k'].
    simpl in *. intros Hr Hfn. destruct (IH Hr Hfn) as (-> & -> & ->). done.
Qed.

(** C7, as amended. When a refresh completes with all sources succeeding
    and the merged file generated (each fetched text parses to an array of
    groups or to a falsy value), the registered completion listeners are
    called in registration order, each with the aggregated status map (the
    four sources and all.txt), until one of them throws. An exception
    thrown by a listener is caught and logged, is not propagated to the
    caller, and does not make the refresh fail: the result is still
    [{ anyRejected: false, statuses }]. If no listener throws, every
    listener is called; the listeners registered after one that throws are
    not called. *)
Theorem refresh_notifies_listeners (env : Env Text) (w : World Text S)
    (body : string -> Text) (doc : string -> Doc) :
  isRefreshing w = false ->
  (forall entry, entry ∈ ENDPOINTS ->
     http_get env entry.2 = inr (body entry.2) /\
     JSON_parse (body entry.2) = Some (doc entry.2) /\
     doc entry.2 <> DOther) ->
  exists st w' before,
    refreshOnce env w = (Return (Done false st), w') /\
    (forall key, is_Some (st !! key) <-> key = "all.txt" \/ key ∈ map fst ENDPOINTS) /\
    (forall i arg, EvNotify i arg ∉ before) /\
    trace w' = (trace w ++ before)
               ++ notify_events st 0 (notify_run st (listeners w) (app w)).2
               ++ listener_error_log (notify_run st (listeners w) (app w)).1.1 /\
    app w' = (notify_run st (listeners w) (app w)).1.2 /\
    ((forall fn a, fn ∈ listeners w -> (fn st a).1 = None) ->
     (notify_run st (listeners w) (app w)).2 = length (listeners w)) /\
    (forall pre fn post e,
       listeners w = pre ++ fn :: post ->
       (notify_run st pre (app w)).1.1 = None ->
       (fn st (notify_run st pre (app w)).1.2).1 = Some e ->
       (notify_run st (listeners w) (app w)).2 = Datatypes.S (length pre)).
Proof.
  intros Hflag Hall.
  rewrite refreshOnce_settled; [| exact Hflag |]; cycle 1.
  { intros entry Hin. exists (body entry.2). apply (Hall entry Hin). }
  rewrite (merged_payload_fetched env _ body doc) by (intros entry Hin; split; apply (Hall entry Hin)).
  rewrite (mapE_all doc_games games_of_doc); cycle 1.
  { intros d Hd. apply doc_games_ok. apply list_elem_of_In, in_map_iff in Hd as (entry & <- & Hin).
    apply list_elem_of_In in Hin. apply (Hall entry Hin). }
  set (ls4 := sources_effect env ENDPOINTS (∅, with_flag true w)).
  set (payload := all_payload _).
  assert (Hframe := sources_effect_frame env ENDPOINTS (∅, with_flag true w)).
  fold ls4 in Hframe. destruct Hframe as (_ & Hl & Ha). simpl in Hl, Ha.
  eexists _, _, (sources_events env ++ [EvWrite (filePath "all.txt") (JSON_stringify payload)]).
  split; [reflexivity |].
  split.
  { intros key. unfold all_status. destruct (decide (key = "all.txt")) as [-> | Hne].
    - rewrite lookup_insert_eq. split; [by left | done].
    - rewrite lookup_insert_ne by done. unfold ls4. rewrite sources_status_keys. split.
      + intros (url & data & Hin & _). right. apply (elem_of_map_fst (key, url)), Hin.
      + intros [? | Hin]; [done |].
        apply list_elem_of_In, in_map_iff in Hin as ([fname url] & <- & Hin).
        apply list_elem_of_In in Hin.
        exists url, (body url). split; [exact Hin | apply (Hall _ Hin)]. }
  split.
  { intros i arg Hin. apply elem_of_app in Hin as [Hin | Hin].
    - by apply source_events_no_notify in Hin.
    - apply list_elem_of_singleton in Hin. discriminate. }
  cbn [with_flag notified_world merged_world trace app listeners disk].
  rewrite Hl, Ha.
  split.
  { unfold ls4. rewrite sources_effect_trace. cbn [snd with_flag trace].
    unfold sources_events. by rewrite <- !app_assoc. }
  split; [reflexivity |].
  split.
  { intros Hquiet. by apply notify_run_none, notify_run_quiet. }
  intros pre fn post e Hsplit Hpre Hfn. rewrite Hsplit.
  by apply (notify_run_stops _ pre fn post (app w) e).
Qed.

End notification.

(** ** The refresh: examples *)

Section refresh_examples.

#[local] Existing Instance code_unit_locale.
#[local] Existing Instance sample_json.
#[local] Existing Instance epoch_iso.

Lemma plus_games_in_ENDPOINTS :
  ("plus-games-list.txt",
   "https://www.playstation.com/bin/imagic/gameslist?locale=en-in&categoryList=plus-games-list")
  ∈ ENDPOINTS.
Proof. left. Qed.

(** One endpoint down: the cache is untouched and all.txt is not written. *)
Lemma refresh_partial_failure_witness :
  exists st w',
    refreshOnce env_one_down world_idle = (Return (Done true st), w') /\
    app w' = app world_idle /\
    disk w' !! filePath "all.txt" = None /\
    content <$> disk w' !! filePath "plus-classics-list.txt" = Some sample_snapshot.
Proof.
  destruct (refresh_partial_failure env_one_down world_idle eq_refl) as
    (st & w' & evs & Hrun & _ & _ & Hall & _ & Happ & Hwritten).
  - eexists _, _. split; [exact plus_games_in_ENDPOINTS | reflexivity].
  - exists st, w'. split; [exact Hrun |]. split; [exact Happ |].
    split; [exact Hall |].
    apply (Hwritten "plus-classics-list.txt"
             "https://www.playstation.com/bin/imagic/gameslist?locale=en-in&categoryList=plus-classics-list").
    + right. right. left.
    + reflexivity.
Defined.

(** A second call while a refresh is in flight. *)
Lemma refresh_mutual_exclusion_witness :
  refreshOnce env_all_ok world_busy = (Return InProgress, world_busy).
Proof.
  apply (refresh_mutual_exclusion env_all_ok world_busy). reflexivity.
Defined.

(** The exception path of the refresh is real: when a fetched text is
    not JSON, [generateAllMerged] throws, the outer [catch] turns the
    exception into an [error] result, and the flag is clear. *)
Lemma refresh_bad_json :
  let r := refreshOnce env_bad_json world_idle in
  (exists st, r.1 = Return (Failed "SyntaxError: JSON.parse" st)) /\
  isRefreshing r.2 = false /\
  app r.2 = app world_idle /\
  disk r.2 !! filePath "all.txt" = None.
Proof.
  cbv zeta. split; [eexists; vm_compute; reflexivity |].
  repeat split; vm_compute; reflexivity.
Qed.

Lemma refresh_clears_flag_witness :
  exists r w',
    refreshOnce env_bad_json world_idle = (Return r, w') /\ r <> InProgress /\
    isRefreshing w' = false.
Proof.
  apply (refresh_clears_flag env_bad_json world_idle). reflexivity.
Defined.

Lemma refresh_failed_source_witness :
  exists st w',
    refreshOnce env_one_down world_idle = (Return (Done true st), w') /\
    st !! "plus-games-list.txt" = None /\
    disk w' !! filePath "plus-games-list.txt" = None.
Proof.
  destruct (refresh_failed_source env_one_down world_idle
              "plus-games-list.txt"
              "https://www.playstation.com/bin/imagic/gameslist?locale=en-in&categoryList=plus-games-list"
              "timeout of 30000ms exceeded" eq_refl plus_games_in_ENDPOINTS eq_refl)
    as (st & w' & evs & Hrun & _ & Hst & _ & _ & Hdisk).
  exists st, w'. split; [exact Hrun |]. split; [exact Hst | exact Hdisk].
Defined.

(** C6, as stated, fails: with the plus-games-list endpoint down, the
    returned status map has no entry (no failure status) for that source,
    so it does not have an entry for each of the four sources. *)
Lemma failed_source_has_no_status :
  let r := refreshOnce env_one_down world_idle in
  exists st,
    r.1 = Return (Done true st) /\
    st !! "plus-games-list.txt" = None /\
    ~ (forall entry, entry ∈ ENDPOINTS -> is_Some (st !! entry.1)).
Proof.
  cbv zeta.
  exists (sources_effect env_one_down ENDPOINTS (∅, with_flag true world_idle)).1.
  split; [vm_compute; reflexivity |].
  assert (Hnone : (sources_effect env_one_down ENDPOINTS (∅, with_flag true world_idle)).1
                    !! "plus-games-list.txt" = None) by (vm_compute; reflexivity).
  split; [exact Hnone |].
  intros Hall. destruct (Hall _ plus_games_in_ENDPOINTS) as [line Hline].
  cbn [fst] in Hline. rewrite Hnone in Hline. discriminate.
Qed.

(** All endpoints up: the listener of routes.js runs and the cache is
    invalidated. *)
Lemma refresh_notifies_listeners_witness :
  exists st w',
    refreshOnce env_all_ok world_idle = (Return (Done false st), w') /\
    app w' = empty_cache.
Proof.
  destruct (refresh_notifies_listeners env_all_ok world_idle
              (fun _ => sample_snapshot)
              (fun _ => DArray [ mkGroup (Some (lit "PLUS")) (Some 2)
                                   (Some [sample_game 10001 "b"; sample_game 10002 "a"]) ])
              eq_refl)
    as (st & w' & before & Hrun & _ & _ & _ & Happ & _).
  - intros entry _. split; [reflexivity |]. split; [reflexivity | discriminate].
  - exists st, w'. split; [exact Hrun | exact Happ].
Defined.

(** C7, as stated, fails: with a listener that throws registered before
    the callback of routes.js, the refresh succeeds, the first listener is
    called, and the second one never is (the trace records a call of the
    listener at position 0 only): the cache stays populated. *)
Lemma broken_listener_blocks_the_rest :
  let r := refreshOnce env_all_ok world_broken_listener in
  (exists st, r.1 = Return (Done false st)) /\
  listeners r.2 = [broken_listener; invalidate_cache] /\
  notified (trace r.2) = [0%nat] /\
  all (app r.2) = Some sample_catalogue.
Proof.
  cbv zeta. split; [eexists; vm_compute; reflexivity |].
  repeat split; vm_compute; reflexivity.
Qed.

End refresh_examples.

(** ** Sorting with a consistent comparator *)

Lemma filter_none {A} (p : A -> bool) (l : list A) :
  (forall w, In w l -> p w = false) -> List.filter p l = [].
Proof.
  induction l as [| x l IH]; intros Hnone; [reflexivity |]. simpl.
  rewrite (Hnone x) by (by left). apply IH. intros w Hw. apply Hnone. by right.
Qed.

Section sort_facts.
Context {A : Type} (cmp : A -> A -> Z).
Hypothesis cmp_flip : forall a b, Z.sgn (cmp b a) = - Z.sgn (cmp a b).
Hypothesis cmp_trans : forall a b c, cmp a b <= 0 -> cmp b c <= 0 -> cmp a c <= 0.

Lemma cmp_gt_lt a b : cmp a b > 0 -> cmp b a < 0.
Proof. intros Hab. pose proof (cmp_flip a b). lia. Qed.

Lemma cmp_refl a : cmp a a = 0.
Proof. pose proof (cmp_flip a a). lia. Qed.

Lemma same_rank_refl a : same_rank cmp a a = true.
Proof. unfold same_rank. rewrite cmp_refl. reflexivity. Qed.

Lemma same_rank_sym a b : same_rank cmp a b = true -> same_rank cmp b a = true.
Proof. unfold same_rank. rewrite !Z.eqb_eq. pose proof (cmp_flip a b). lia. Qed.

Lemma same_rank_trans a b c :
  same_rank cmp a b = true -> same_rank cmp b c = true -> same_rank cmp a c = true.
Proof.
  unfold same_rank. rewrite !Z.eqb_eq. intros Hab Hbc.
  pose proof (cmp_trans a b c ltac:(lia) ltac:(lia)).
  pose proof (cmp_flip a b). pose proof (cmp_flip b c). pose proof (cmp_flip a c).
  pose proof (cmp_trans c b a ltac:(lia) ltac:(lia)). lia.
Qed.

Lemma sort_insert_perm x l : Permutation (sort_insert cmp x l) (x :: l).
Proof.
  induction l as [| y l IH]; simpl; [reflexivity |].
  destruct (cmp x y <? 0); [reflexivity |].
  rewrite IH. apply perm_swap.
Qed.

Lemma sort_fold_perm l sorted :
  Permutation (fold_left (fun sorted pivot => sort_insert cmp pivot sorted) l sorted)
              (sorted ++ l).
Proof.
  revert sorted. induction l as [| x l IH]; intros sorted; simpl.
  - by rewrite app_nil_r.
  - rewrite IH, sort_insert_perm. apply Permutation_middle.
Qed.

Lemma Array_sort_perm l : Permutation (Array_sort cmp l) l.
Proof. apply (sort_fold_perm l []). Qed.

Lemma sort_insert_sorted x l :
  StronglySorted (not_after cmp) l -> StronglySorted (not_after cmp) (sort_insert cmp x l).
Proof.
  induction 1 as [| y l Hl IH Hy]; simpl; [repeat constructor |].
  destruct (Z.ltb_spec (cmp x y) 0) as [Hlt | Hge].
  - constructor; [by constructor |]. constructor; [unfold not_after; lia |].
    eapply Forall_impl; [exact Hy |]. intros z Hz. apply (cmp_trans x y z); [lia | exact Hz].
  - constructor; [exact IH |].
    apply (Permutation_Forall (Permutation_sym (sort_insert_perm x l))).
    constructor; [| exact Hy].
    unfold not_after. pose proof (cmp_flip x y). lia.
Qed.

Lemma sort_fold_sorted l sorted :
  StronglySorted (not_after cmp) sorted ->
  StronglySorted (not_after cmp)
    (fold_left (fun sorted pivot => sort_insert cmp pivot sorted) l sorted).
Proof.
  revert sorted. induction l as [| x l IH]; intros sorted Hs; simpl; [exact Hs |].
  by apply IH, sort_insert_sorted.
Qed.

Lemma Array_sort_sorted l : StronglySorted (not_after cmp) (Array_sort cmp l).
Proof. apply sort_fold_sorted. constructor. Qed.

(** The pivot goes behind the elements of its rank: it stood behind them
    in the array. *)
Lemma sort_insert_stable z x l :
  StronglySorted (not_after cmp) l ->
  List.filter (same_rank cmp z) (sort_insert cmp x l) = List.filter (same_rank cmp z) (l ++ [x]).
Proof.
  induction 1 as [| y l Hl IH Hy]; [reflexivity |]. simpl sort_insert.
  destruct (Z.ltb_spec (cmp x y) 0) as [Hlt | Hge].
  - change (x :: y :: l) with ([x] ++ (y :: l)).
    rewrite !List.filter_app.
    change (List.filter (same_rank cmp z) [x])
      with (if same_rank cmp z x then [x] else []).
    destruct (same_rank cmp z x) eqn:Hx; [| by rewrite app_nil_r].
    assert (Hnone : List.filter (same_rank cmp z) (y :: l) = []).
    { apply filter_none. intros w Hw.
      destruct (same_rank cmp z w) eqn:Hzw; [exfalso | reflexivity].
      pose proof (same_rank_trans _ _ _ (same_rank_sym _ _ Hx) Hzw) as Hxw.
      unfold same_rank in Hxw. apply Z.eqb_eq in Hxw.
      assert (Hyw : cmp y w <= 0).
      { destruct Hw as [<- | Hw]; [rewrite cmp_refl; lia |].
        rewrite List.Forall_forall in Hy. by apply Hy. }
      pose proof (cmp_flip x w). pose proof (cmp_flip x y).
      pose proof (cmp_trans y w x Hyw ltac:(lia)). lia. }
    rewrite Hnone. reflexivity.
  - cbn [List.filter app]. rewrite IH. reflexivity.
Qed.

Lemma sort_fold_stable z l sorted :
  StronglySorted (not_after cmp) sorted ->
  List.filter (same_rank cmp z)
    (fold_left (fun sorted pivot => sort_insert cmp pivot sorted) l sorted)
  = List.filter (same_rank cmp z) (sorted ++ l).
Proof.
  revert sorted. induction l as [| x l IH]; intros sorted Hs; simpl.
  - by rewrite app_nil_r.
  - rewrite IH by (by apply sort_insert_sorted).
    rewrite !List.filter_app, sort_insert_stable by exact Hs.
    change (x :: l) with ([x] ++ l).
    rewrite !List.filter_app, <- app_assoc. reflexivity.
Qed.

Lemma Array_sort_stable z l :
  List.filter (same_rank cmp z) (Array_sort cmp l) = List.filter (same_rank cmp z) l.
Proof. apply (sort_fold_stable z l []). constructor. Qed.

(** Two sorted lists with the same elements of each rank, in the same
    order, are equal. *)
Lemma sorted_stable_unique l1 l2 :
  StronglySorted (not_after cmp) l1 -> StronglySorted (not_after cmp) l2 ->
  (forall z, List.filter (same_rank cmp z) l1 = List.filter (same_rank cmp z) l2) ->
  l1 = l2.
Proof.
  intros Hs1. revert l2. induction Hs1 as [| x l1 Hs1 IH Hx]; intros l2 Hs2 Hsame.
  - destruct l2 as [| y l2]; [reflexivity |].
    specialize (Hsame y). cbn [List.filter] in Hsame.
    rewrite same_rank_refl in Hsame. discriminate.
  - destruct Hs2 as [| y l2 Hs2 Hy].
    + specialize (Hsame x). cbn [List.filter] in Hsame.
      rewrite same_rank_refl in Hsame. discriminate.
    + assert (Hxy : same_rank cmp x y = true).
      { destruct (same_rank cmp x y) eqn:Hxy; [reflexivity | exfalso].
        (* y is not of x's rank: y is in l1, after x; x is in l2, after y *)
        assert (Hyin : In y l1).
        { pose proof (Hsame y) as Hf. cbn [List.filter] in Hf.
          rewrite same_rank_refl in Hf.
          assert (Hyx : same_rank cmp y x = false).
          { destruct (same_rank cmp y x) eqn:E; [| reflexivity].
            apply same_rank_sym in E. congruence. }
          rewrite Hyx in Hf.
          assert (Hyf : In y (List.filter (same_rank cmp y) l1)) by (rewrite Hf; left; reflexivity).
          by apply filter_In in Hyf as [? _]. }
        assert (Hxin : In x l2).
        { pose proof (Hsame x) as Hf. cbn [List.filter] in Hf.
          rewrite same_rank_refl, Hxy in Hf.
          assert (Hxf : In x (List.filter (same_rank cmp x) l2)) by (rewrite <- Hf; left; reflexivity).
          by apply filter_In in Hxf as [? _]. }
        rewrite List.Forall_forall in Hx, Hy.
        pose proof (Hx y Hyin) as Hle1. pose proof (Hy x Hxin) as Hle2.
        unfold not_after in Hle1, Hle2. unfold same_rank in Hxy. apply Z.eqb_neq in Hxy.
        pose proof (cmp_flip x y). lia. }
      pose proof (Hsame x) as Hf. cbn [List.filter] in Hf.
      rewrite same_rank_refl, Hxy in Hf.
      injection Hf as -> Hf. f_equal. apply IH; [exact Hs2 |].
      intros z. specialize (Hsame z). cbn [List.filter] in Hsame.
      destruct (same_rank cmp z y); [by injection Hsame | exact Hsame].
Qed.

(** Whatever stable sort the engine runs, it returns what [Array_sort]
    returns. *)
Lemma Array_sort_unique l l' :
  StronglySorted (not_after cmp) l' ->
  (forall z, List.filter (same_rank cmp z) l' = List.filter (same_rank cmp z) l) ->
  l' = Array_sort cmp l.
Proof.
  intros Hs Hst. apply sorted_stable_unique; [exact Hs | apply Array_sort_sorted |].
  intros z. by rewrite Hst, Array_sort_stable.
Qed.

End sort_facts.

(** If the comparator does not throw on the elements of the array, the
    sort returns what it returns for the comparator's values, and if the
    sort returns at all, it returns a rearrangement of the array. *)
Section sort_exn_facts.
Context {A : Type} (cmpE : A -> A -> Exn + Z) (cmp : A -> A -> Z) (P : A -> Prop).
Hypothesis cmpE_ok : forall a b, P a -> cmpE a b = inr (cmp a b).

Lemma sort_insert_exn_ok x l :
  P x -> sort_insert_exn cmpE x l = inr (sort_insert cmp x l).
Proof.
  intros Hx. induction l as [| y l IH]; simpl; [reflexivity |].
  rewrite cmpE_ok by exact Hx.
  destruct (cmp x y <? 0); [reflexivity |]. by rewrite IH.
Qed.

Lemma sort_fold_exn_ok l sorted :
  Forall P l ->
  fold_left (sort_step_exn cmpE) l (inr sorted)
  = inr (fold_left (fun sorted pivot => sort_insert cmp pivot sorted) l sorted).
Proof.
  intros Hl. revert sorted. induction Hl as [| x l Hx Hl IH]; intros sorted; simpl; [reflexivity |].
  rewrite sort_insert_exn_ok by exact Hx. apply IH.
Qed.

Lemma Array_sort_exn_ok l :
  Forall P l -> Array_sort_exn cmpE l = inr (Array_sort cmp l).
Proof. apply sort_fold_exn_ok. Qed.

End sort_exn_facts.

Lemma sort_fold_exn_thrown {A} (cmpE : A -> A -> Exn + Z) l e :
  fold_left (sort_step_exn cmpE) l (inl e) = inl e.
Proof. induction l as [| x l IH]; [reflexivity | exact IH]. Qed.

Lemma sort_insert_exn_perm {A} (cmpE : A -> A -> Exn + Z) x l r :
  sort_insert_exn cmpE x l = inr r -> Permutation r (x :: l).
Proof.
  revert r. induction l as [| y l IH]; intros r; simpl.
  - by intros [= <-].
  - destruct (cmpE x y) as [e | c]; [discriminate |].
    destruct (c <? 0); [by intros [= <-] |].
    destruct (sort_insert_exn cmpE x l) as [e | r']; [discriminate |].
    intros [= <-]. rewrite (IH r' eq_refl). apply perm_swap.
Qed.

Lemma sort_fold_exn_perm {A} (cmpE : A -> A -> Exn + Z) l sorted r :
  fold_left (sort_step_exn cmpE) l (inr sorted) = inr r -> Permutation r (sorted ++ l).
Proof.
  revert sorted. induction l as [| x l IH]; intros sorted; simpl.
  - intros [= <-]. by rewrite app_nil_r.
  - destruct (sort_insert_exn cmpE x sorted) as [e | sorted'] eqn:Hins.
    + by rewrite sort_fold_exn_thrown.
    + intros Hr. rewrite (IH _ Hr), (sort_insert_exn_perm _ _ _ _ Hins).
      apply Permutation_middle.
Qed.

Lemma Array_sort_exn_perm {A} (cmpE : A -> A -> Exn + Z) l r :
  Array_sort_exn cmpE l = inr r -> Permutation r l.
Proof. apply (sort_fold_exn_perm cmpE l []). Qed.

(** An exception that leaves the sort was thrown by the comparator on two
    elements of the array. *)
Lemma sort_insert_exn_error {A} (cmpE : A -> A -> Exn + Z) x l e :
  sort_insert_exn cmpE x l = inl e -> exists y, y ∈ l /\ cmpE x y = inl e.
Proof.
  induction l as [| y l IH]; simpl; [discriminate |].
  destruct (cmpE x y) as [e' | c] eqn:Hc.
  - intros [= ->]. exists y. split; [left | exact Hc].
  - destruct (c <? 0); [discriminate |].
    destruct (sort_insert_exn cmpE x l) as [e' | r]; [| discriminate].
    intros [= ->]. destruct (IH eq_refl) as (z & Hz & Hxz). exists z. split; [by right | exact Hxz].
Qed.

Lemma sort_fold_exn_error {A} (cmpE : A -> A -> Exn + Z) l sorted e :
  fold_left (sort_step_exn cmpE) l (inr sorted) = inl e ->
  exists x y, x ∈ l /\ y ∈ sorted ++ l /\ cmpE x y = inl e.
Proof.
  revert sorted. induction l as [| x l IH]; intros sorted; simpl; [discriminate |].
  destruct (sort_insert_exn cmpE x sorted) as [e' | sorted'] eqn:Hins.
  - rewrite sort_fold_exn_thrown. intros [= ->].
    apply sort_insert_exn_error in Hins as (y & Hy & Hxy).
    exists x, y. split; [left |]. split; [| exact Hxy].
    apply elem_of_app. by left.
  - intros Hl. destruct (IH _ Hl) as (a & b & Ha & Hb & Hab).
    exists a, b. split; [by right |]. split; [| exact Hab].
    apply sort_insert_exn_perm in Hins. rewrite Hins in Hb.
    by rewrite <- Permutation_middle.
Qed.

Lemma Array_sort_exn_error {A} (cmpE : A -> A -> Exn + Z) l e :
  Array_sort_exn cmpE l = inl e ->
  exists x y, x ∈ l /\ y ∈ l /\ cmpE x y = inl e.
Proof. apply (sort_fold_exn_error cmpE l []). Qed.

(** The sort depends on the comparator only through its values on the
    elements of the array. *)
Lemma sort_insert_ext {A} (cmp1 cmp2 : A -> A -> Z) (P : A -> Prop) x l :
  (forall a b, P a -> P b -> cmp1 a b = cmp2 a b) ->
  P x -> Forall P l -> sort_insert cmp1 x l = sort_insert cmp2 x l.
Proof.
  intros Hext Hx. induction 1 as [| y l Hy Hl IH]; simpl; [reflexivity |].
  rewrite (Hext x y Hx Hy), IH. reflexivity.
Qed.

Lemma sort_fold_ext {A} (cmp1 cmp2 : A -> A -> Z) (P : A -> Prop) l sorted :
  (forall a b, P a -> P b -> cmp1 a b = cmp2 a b) ->
  Forall P l -> Forall P sorted ->
  fold_left (fun sorted pivot => sort_insert cmp1 pivot sorted) l sorted
  = fold_left (fun sorted pivot => sort_insert cmp2 pivot sorted) l sorted.
Proof.
  intros Hext Hl. revert sorted. induction Hl as [| x l Hx Hl IH]; intros sorted Hs; simpl.
  - reflexivity.
  - rewrite (sort_insert_ext cmp1 cmp2 P) by assumption. apply IH.
    apply (Permutation_Forall (Permutation_sym (sort_insert_perm cmp2 x sorted))).
    by constructor.
Qed.

Lemma Array_sort_ext {A} (cmp1 cmp2 : A -> A -> Z) (P : A -> Prop) l :
  (forall a b, P a -> P b -> cmp1 a b = cmp2 a b) ->
  Forall P l -> Array_sort cmp1 l = Array_sort cmp2 l.
Proof. intros Hext Hl. by apply (sort_fold_ext cmp1 cmp2 P). Qed.

(** ** [sortByName] *)

Section sortByName_facts.
Context `{Collation}.

Lemma by_name_flip a b : Z.sgn (by_name b a) = - Z.sgn (by_name a b).
Proof. apply localeCompare_flip. Qed.

Lemma by_name_trans a b c : by_name a b <= 0 -> by_name b c <= 0 -> by_name a c <= 0.
Proof. apply localeCompare_trans. Qed.


(** On games that all have a name, [sortByName] of routes.js returns what
    [sortByName] of refresher.js returns. *)
Lemma routes_sortByName_named (arr : list RawGame) :
  Forall (fun g => is_Some (name g)) arr ->
  Routes.sortByName arr = inr (Refresher.sortByName arr).
Proof.
  intros Hnamed. unfold Routes.sortByName, Refresher.sortByName.
  rewrite (Array_sort_exn_ok compare_names
             (fun a b => localeCompare (name_or_empty a)
                           (match name b with Some bn => bn | None => lit "undefined" end))
             (fun g => is_Some (name g))).
  - f_equal. apply (Array_sort_ext _ _ (fun g => is_Some (name g))); [| exact Hnamed].
    intros a b _ [n Hn]. unfold name_or_empty. by rewrite Hn.
  - intros a b [n Hn]. unfold compare_names, name_or_empty. by rewrite Hn.
  - exact Hnamed.
Qed.

End sortByName_facts.

(** C8, evaluated. On two entries without a name, [sortByName] of
    routes.js throws a TypeError (the routes answer 500), where
    [sortByName] of refresher.js rearranges the entries without an error. *)
Theorem routes_sortByName_nameless `{LocaleCompare} (k1 k2 : option Key) :
  Routes.sortByName [nameless k1; nameless k2]
  = inl "TypeError: Cannot read properties of undefined (reading 'localeCompare')" /\
  Permutation (Refresher.sortByName [nameless k1; nameless k2]) [nameless k1; nameless k2].
Proof.
  split; [reflexivity | apply Array_sort_perm].
Qed.

(** ** De-duplication in '/all-games' *)

Section dedupe_facts.

Lemma map_set_fresh {K V} `{EqDecision K} (m : list (K * V)) k v :
  map_has m k = false -> map_set m k v = m ++ [(k, v)].
Proof.
  unfold map_has. induction m as [| kv m IH]; simpl; [reflexivity |].
  intros Hfresh. apply orb_false_iff in Hfresh as [-> Hfresh]. by rewrite IH.
Qed.

Lemma map_has_app {K V} `{EqDecision K} (m1 m2 : list (K * V)) k :
  map_has (m1 ++ m2) k = map_has m1 k || map_has m2 k.
Proof. unfold map_has. apply existsb_app. Qed.

Lemma dedupe_step_eq byId g :
  dedupe_step byId g
  = if map_has byId (conceptId g) then byId else byId ++ [(conceptId g, g)].
Proof.
  unfold dedupe_step. destruct (map_has byId (conceptId g)) eqn:Hhas; simpl; [reflexivity |].
  by apply map_set_fresh.
Qed.

Lemma dedupe_fold k merged byId :
  with_conceptId k (map_values (fold_left dedupe_step merged byId))
  = with_conceptId k (map_values byId)
    ++ (if map_has byId k then [] else option_list (first_with_conceptId k merged)).
Proof.
  revert byId. induction merged as [| g merged IH]; intros byId; simpl fold_left.
  - simpl. destruct (map_has byId k); by rewrite app_nil_r.
  - rewrite IH, dedupe_step_eq. clear IH.
    unfold first_with_conceptId. cbn [List.find].
    destruct (map_has byId (conceptId g)) eqn:Hseen.
    + destruct (map_has byId k) eqn:Hk; [reflexivity |].
      assert (Hne : has_conceptId k g = false).
      { unfold has_conceptId. apply bool_decide_eq_false_2. congruence. }
      rewrite Hne. reflexivity.
    + unfold map_values, with_conceptId.
      rewrite map_app, List.filter_app, map_has_app, <- app_assoc. f_equal.
      cbn [map List.filter snd]. unfold map_has at 2. cbn [existsb fst].
      rewrite orb_false_r. unfold has_conceptId.
      destruct (decide (conceptId g = k)) as [<- | Hne].
      * rewrite !bool_decide_eq_true_2 by reflexivity. rewrite Hseen. reflexivity.
      * rewrite !bool_decide_eq_false_2 by exact Hne. rewrite orb_false_r. reflexivity.
Qed.

(** Of the records that carry a conceptId, [dedupeByConceptId] keeps the
    first one, whole, and nothing else. *)
Lemma dedupe_keeps_first k merged :
  with_conceptId k (dedupeByConceptId merged)
  = option_list (first_with_conceptId k merged).
Proof. unfold dedupeByConceptId. by rewrite dedupe_fold. Qed.

Lemma first_with_conceptId_app k l1 l2 :
  first_with_conceptId k (l1 ++ l2)
  = match first_with_conceptId k l1 with
    | Some g => Some g
    | None => first_with_conceptId k l2
    end.
Proof.
  unfold first_with_conceptId. induction l1 as [| g l1 IH]; simpl; [reflexivity |].
  destruct (has_conceptId k g); [reflexivity | exact IH].
Qed.

(** What [dedupeByConceptId] keeps is a record of its input. *)
Lemma dedupe_subset g merged : g ∈ dedupeByConceptId merged -> g ∈ merged.
Proof.
  intros Hg.
  assert (Hin : In g (with_conceptId (conceptId g) (dedupeByConceptId merged))).
  { apply filter_In. split; [by apply list_elem_of_In |].
    unfold has_conceptId. by apply bool_decide_eq_true_2. }
  rewrite dedupe_keeps_first in Hin. unfold first_with_conceptId in Hin.
  destruct (List.find _ merged) as [g' |] eqn:Hfind; [| destruct Hin].
  destruct Hin as [<- | []]. apply find_some in Hfind as [Hfind _].
  by apply list_elem_of_In.
Qed.

(** The public view of a game carries every field of the record. *)
Lemma toPublicGame_inj g g' : toPublicGame g = toPublicGame g' -> g = g'.
Proof. destruct g, g'. unfold toPublicGame. simpl. intros [= _ -> -> -> -> -> -> ->]. reflexivity. Qed.

Lemma first_with_conceptId_Some k l g :
  g ∈ l -> conceptId g = k -> is_Some (first_with_conceptId k l).
Proof.
  unfold first_with_conceptId. intros Hin Hk.
  destruct (List.find (has_conceptId k) l) eqn:Hfind; [done |].
  apply list_elem_of_In in Hin.
  pose proof (find_none _ _ Hfind g Hin) as Hno.
  unfold has_conceptId in Hno. by rewrite bool_decide_eq_true_2 in Hno.
Qed.

End dedupe_facts.


Lemma filter_Permutation_bool {A} (p : A -> bool) (l l' : list A) :
  Permutation l l' -> Permutation (List.filter p l) (List.filter p l').
Proof.
  induction 1 as [| x l l' _ IH | x y l | l l' l'' _ IH1 _ IH2]; simpl.
  - reflexivity.
  - destruct (p x); [by constructor | exact IH].
  - destruct (p x), (p y); try reflexivity. apply perm_swap.
  - by rewrite IH1.
Qed.

Lemma with_conceptId_one k l g :
  g ∈ l -> conceptId g = k -> (1 <= length (with_conceptId k l))%nat.
Proof.
  intros Hin Hk.
  assert (Hg : In g (with_conceptId k l)).
  { apply filter_In. split; [by apply list_elem_of_In |].
    unfold has_conceptId. by apply bool_decide_eq_true_2. }
  destruct (with_conceptId k l); [destruct Hg | simpl; lia].
Qed.

Lemma elem_of_concat_map {E A} (f : E -> list A) (l : list E) e x :
  e ∈ l -> x ∈ f e -> x ∈ concat (map f l).
Proof.
  intros He Hx. rewrite list_elem_of_In. apply in_concat. exists (f e).
  split; [apply in_map; by apply list_elem_of_In | by apply list_elem_of_In].
Qed.

(** A conceptId carried by records of two different sources occurs at
    least twice in the concatenation of the sources. *)
Lemma two_sources_twice {E} (f : E -> list RawGame) (l : list E) e1 e2 g1 g2 k :
  e1 ∈ l -> e2 ∈ l -> e1 <> e2 -> g1 ∈ f e1 -> g2 ∈ f e2 ->
  conceptId g1 = k -> conceptId g2 = k ->
  (2 <= length (with_conceptId k (concat (map f l))))%nat.
Proof.
  intros He1 He2 Hne Hg1 Hg2 Hk1 Hk2.
  induction l as [| e l IH]; [inversion He1 |].
  simpl. unfold with_conceptId. rewrite List.filter_app, length_app.
  fold (with_conceptId k (f e)). fold (with_conceptId k (concat (map f l))).
  apply elem_of_cons in He1 as [<- | He1], He2 as [Heq | He2].
  - congruence.
  - pose proof (with_conceptId_one k (f e1) g1 Hg1 Hk1).
    pose proof (with_conceptId_one k _ g2 (elem_of_concat_map f l e2 g2 He2 Hg2) Hk2). lia.
  - subst e.
    pose proof (with_conceptId_one k (f e2) g2 Hg2 Hk2).
    pose proof (with_conceptId_one k _ g1 (elem_of_concat_map f l e1 g1 He1 Hg1) Hk1). lia.
  - specialize (IH He1 He2). lia.
Qed.

Section all_games_facts.
Context {Text : Type} `{!Json Text} `{!LocaleCompare}.

Lemma public_with_conceptId_map k (l : list RawGame) :
  public_with_conceptId k (map toPublicGame l) = map toPublicGame (with_conceptId k l).
Proof.
  unfold public_with_conceptId, with_conceptId.
  induction l as [| g l IH]; [reflexivity |].
  simpl. unfold has_conceptId at 1. destruct (bool_decide (conceptId g = k)); simpl; by rewrite IH.
Qed.

(** What '/all-games' builds holds each conceptId at most once. *)
Lemma build_all_games_once (d : gmap string (File Text)) (body : list Catalogue) :
  build_all_games d = inr body ->
  exists cat, body = [cat] /\
    cat_count cat = Z.of_nat (length (cat_games cat)) /\
    forall k, (length (public_with_conceptId k (cat_games cat)) <= 1)%nat.
Proof.
  unfold build_all_games.
  destruct (loadGroupedGames d _) as [e | included]; [discriminate |].
  destruct (loadGroupedGames d _) as [e | classics]; [discriminate |].
  destruct (loadGroupedGames d _) as [e | monthly]; [discriminate |].
  destruct (loadGroupedGames d _) as [e | ubisoft]; [discriminate |].
  destruct (Routes.sortByName _) as [e | sorted] eqn:Hsort; [discriminate |].
  intros [= <-]. eexists. split; [reflexivity |]. split; [reflexivity |].
  intros k. cbn [cat_games]. rewrite public_with_conceptId_map, length_map.
  apply Array_sort_exn_perm in Hsort.
  pose proof (Permutation_length (filter_Permutation_bool (has_conceptId k) _ _ Hsort)) as Hlen.
  pose proof (dedupe_keeps_first k (included ++ classics ++ monthly ++ ubisoft)) as Hfirst.
  unfold with_conceptId in *. rewrite Hlen, Hfirst.
  destruct (first_with_conceptId k _); simpl; lia.
Qed.

(** C9. In the all-sources merge of '/all-games', whenever two game
    records of the four snapshots share a conceptId, the route retains
    exactly one entry with that conceptId, and it is the first occurrence
    under the source order included-games, classics, monthly,
    ubisoft-classics: the answer holds the public view of that one record,
    every field from it, and no view of another record with the conceptId.
    The route answers so whenever it answers 200, which it does when every
    record of the snapshots has a name; its only other answer is the 500 of
    a sort that met a record without a name. *)
Theorem all_games_dedupe (c : Cache) (d : gmap string (File Text))
    (included classics monthly ubisoft : list RawGame) (g1 g2 : RawGame) :
  all c = None ->
  loadGroupedGames d "./full_responses/plus-games-list.txt" = inr included ->
  loadGroupedGames d "./full_responses/plus-classics-list.txt" = inr classics ->
  loadGroupedGames d "./full_responses/plus-monthly-games-list.txt" = inr monthly ->
  loadGroupedGames d "./full_responses/ubisoft-classics-list.txt" = inr ubisoft ->
  let merged := included ++ classics ++ monthly ++ ubisoft in
  g1 ∈ merged -> g2 ∈ merged -> conceptId g1 = conceptId g2 ->
  exists kept,
    first_with_conceptId (conceptId g1) merged = Some kept /\
    Some kept
    = match first_with_conceptId (conceptId g1) included with
      | Some g => Some g
      | None =>
          match first_with_conceptId (conceptId g1) classics with
          | Some g => Some g
          | None =>
              match first_with_conceptId (conceptId g1) monthly with
              | Some g => Some g
              | None => first_with_conceptId (conceptId g1) ubisoft
              end
          end
      end /\
    match (get_all_games c d).1 with
    | R200 body =>
        exists cat, body = [cat] /\
          public_with_conceptId (conceptId g1) (cat_games cat) = [toPublicGame kept] /\
          (forall g, conceptId g = conceptId g1 -> g <> kept ->
             toPublicGame g ∉ cat_games cat)
    | R500 error details =>
        error = "Failed to build all-games" /\
        details = "TypeError: Cannot read properties of undefined (reading 'localeCompare')" /\
        exists g, g ∈ merged /\ name g = None
    end /\
    (Forall named merged -> exists body, (get_all_games c d).1 = R200 body).
Proof.
  intros Hmiss Hincluded Hclassics Hmonthly Hubisoft merged Hin1 _ _.
  destruct (first_with_conceptId_Some (conceptId g1) merged g1 Hin1 eq_refl) as [kept Hkept].
  assert (Hone : with_conceptId (conceptId g1) (dedupeByConceptId merged) = [kept])
    by (by rewrite dedupe_keeps_first, Hkept).
  assert (Hroute :
    (get_all_games c d).1
    = match Routes.sortByName (dedupeByConceptId merged) with
      | inl e => R500 "Failed to build all-games" e
      | inr sorted =>
          R200 [ mkCatalogue "All" "Every game from every catalogue"
                   (Z.of_nat (length (map toPublicGame sorted))) (map toPublicGame sorted) ]
      end).
  { unfold get_all_games, build_all_games.
    rewrite Hmiss, Hincluded, Hclassics, Hmonthly, Hubisoft. fold merged.
    destruct (Routes.sortByName _); reflexivity. }
  exists kept. split; [exact Hkept |].
  split; [rewrite <- Hkept; unfold merged; by rewrite !first_with_conceptId_app |].
  rewrite Hroute. split.
  - destruct (Routes.sortByName _) as [e | sorted] eqn:Hsort.
    + split; [reflexivity |].
      apply Array_sort_exn_error in Hsort as (a & b & Ha & _ & Hab).
      unfold compare_names in Hab. destruct (name a) eqn:Hname; [discriminate |].
      injection Hab as <-. split; [reflexivity |].
      exists a. split; [by apply dedupe_subset | exact Hname].
    + assert (Hsorted : with_conceptId (conceptId g1) sorted = [kept]).
      { apply Permutation_length_1_inv. rewrite <- Hone. symmetry.
        apply filter_Permutation_bool. by apply Array_sort_exn_perm in Hsort. }
      eexists. split; [reflexivity |]. cbn [cat_games].
      rewrite public_with_conceptId_map, Hsorted. split; [reflexivity |].
      intros g Hk Hne Hg.
      assert (Hview : In (toPublicGame g)
                (public_with_conceptId (conceptId g1) (map toPublicGame sorted))).
      { apply filter_In. split; [by apply list_elem_of_In |].
        by apply bool_decide_eq_true_2. }
      rewrite public_with_conceptId_map, Hsorted in Hview.
      destruct Hview as [Hview | []]. apply Hne. symmetry. by apply toPublicGame_inj.
  - intros Hnamed. rewrite routes_sortByName_named; [by eexists |].
    apply List.Forall_forall. intros g Hg. rewrite List.Forall_forall in Hnamed.
    apply Hnamed. by apply list_elem_of_In, dedupe_subset, list_elem_of_In.
Qed.

End all_games_facts.

Section all_games_examples.

#[local] Existing Instance code_unit_locale.
#[local] Existing Instance sample_json.

(** The same conceptId in the first two snapshots: '/all-games' answers
    with the record of included-games and not with the one of classics. *)
Lemma all_games_dedupe_witness :
  exists cat,
    (get_all_games empty_cache disk_shared_conceptId).1 = R200 [cat] /\
    public_with_conceptId (Some (KNum 10001)) (cat_games cat)
    = [toPublicGame (sample_game 10001 "from included-games")] /\
    toPublicGame (sample_game 10001 "from classics") ∉ cat_games cat.
Proof.
  destruct (all_games_dedupe empty_cache disk_shared_conceptId
              [sample_game 10001 "from included-games"]
              [sample_game 10001 "from classics"; sample_game 10002 "only in classics"]
              [] [sample_game 10003 "only in ubisoft-classics"]
              (sample_game 10001 "from included-games")
              (sample_game 10001 "from classics"))
    as (kept & _ & Hfirst & Hanswer & Hreturns).
  - reflexivity.
  - vm_compute. reflexivity.
  - vm_compute. reflexivity.
  - vm_compute. reflexivity.
  - vm_compute. reflexivity.
  - left.
  - right. left.
  - reflexivity.
  - injection Hfirst as ->.
    destruct Hreturns as [body Hbody].
    { repeat constructor; by eexists. }
    rewrite Hbody in Hanswer. destruct Hanswer as (cat & -> & Hone & Hdropped).
    exists cat. split; [exact Hbody |]. split; [exact Hone |].
    apply Hdropped; [reflexivity | discriminate].
Defined.

End all_games_examples.

(** ** The merged file against '/all-games' *)

Section merged_file.
Context {Text S : Type} `{!Json Text} `{!JsonRoundTrip Text} `{!LocaleCompare} `{!IsoDate}.

(** The cache of '/all-games' only ever holds bodies built by the route:
    the empty cache and an invalidated cache hold none, the route keeps the
    property, and what it answers has it. *)
Lemma empty_cache_once_each : cache_once_each empty_cache.
Proof. intros cached. discriminate. Qed.

Lemma invalidate_cache_once_each st c : cache_once_each (invalidate_cache st c).2.
Proof. intros cached. discriminate. Qed.

Lemma get_all_games_once_each (c : Cache) (d : gmap string (File Text)) :
  cache_once_each c ->
  cache_once_each (get_all_games c d).2 /\
  forall body, (get_all_games c d).1 = R200 body -> once_each body.
Proof.
  intros Hc. unfold get_all_games.
  destruct (all c) as [cached |] eqn:Hall; simpl.
  - split; [exact Hc |]. intros body [= <-]. by apply Hc.
  - destruct (build_all_games d) as [e | built] eqn:Hbuild; simpl.
    + split; [exact Hc | discriminate].
    + apply build_all_games_once in Hbuild as (cat & -> & _ & Honce).
      assert (Hbody : once_each [cat]) by (by exists cat).
      split; [by intros cached [= <-] | by intros body [= <-]].
Qed.

(** C10. The merged snapshot all.txt that a successful refresh generates
    is not de-duplicated: its single group holds every game record of the
    four fetched snapshots (a rearrangement of their concatenation) and its
    count is their number, so when the same conceptId occurs in two source
    snapshots both records are in the group and '/all-data', which returns
    the parsed file, returns that conceptId at least twice; '/all-games',
    built from the same snapshots, holds each conceptId at most once. *)
Theorem all_data_keeps_duplicates (env : Env Text) (w : World Text S)
    (body : string -> Text) (doc : string -> Doc) :
  isRefreshing w = false ->
  (forall entry, entry ∈ ENDPOINTS ->
     http_get env entry.2 = inr (body entry.2) /\
     JSON_parse (body entry.2) = Some (doc entry.2) /\
     doc entry.2 <> DOther) ->
  exists st w' merged,
    refreshOnce env w = (Return (Done false st), w') /\
    Permutation merged (concat (map (fun entry => games_of_doc (doc entry.2)) ENDPOINTS)) /\
    get_all_data (disk w')
    = R200 (DArray [ mkGroup (Some (lit "ALL")) (Some (Z.of_nat (length merged)))
                             (Some merged) ]) /\
    (forall e1 e2 g1 g2,
       e1 ∈ ENDPOINTS -> e2 ∈ ENDPOINTS -> e1 <> e2 ->
       g1 ∈ games_of_doc (doc e1.2) -> g2 ∈ games_of_doc (doc e2.2) ->
       conceptId g1 = conceptId g2 ->
       g1 ∈ merged /\ g2 ∈ merged /\
       (2 <= length (with_conceptId (conceptId g1) merged))%nat) /\
    (forall c body',
       cache_once_each c -> (get_all_games c (disk w')).1 = R200 body' ->
       exists cat, body' = [cat] /\
         forall k, (length (public_with_conceptId k (cat_games cat)) <= 1)%nat).
Proof.
  intros Hflag Hall.
  rewrite refreshOnce_settled; [| exact Hflag |]; cycle 1.
  { intros entry Hin. exists (body entry.2). apply (Hall entry Hin). }
  rewrite (merged_payload_fetched env _ body doc) by (intros entry Hin; split; apply (Hall entry Hin)).
  rewrite (mapE_all doc_games games_of_doc); cycle 1.
  { intros d Hd. apply doc_games_ok. apply list_elem_of_In, in_map_iff in Hd as (entry & <- & Hin).
    apply list_elem_of_In in Hin. apply (Hall entry Hin). }
  rewrite map_map.
  set (sources := concat (map (fun entry => games_of_doc (doc entry.2)) ENDPOINTS)).
  assert (Hperm : Permutation (Refresher.sortByName sources) sources) by apply Array_sort_perm.
  eexists _, _, (Refresher.sortByName sources). split; [reflexivity |].
  split; [exact Hperm |].
  split.
  { unfold get_all_data, readFileSync. cbn [with_flag notified_world merged_world disk].
    change (path_join "./full_responses/all.txt") with (filePath "all.txt").
    rewrite lookup_insert_eq. cbn [content]. unfold JSON_parse_exn.
    rewrite parse_stringify. reflexivity. }
  split.
  { intros e1 e2 g1 g2 He1 He2 Hne Hg1 Hg2 Hk.
    assert (Hin1 : g1 ∈ sources) by (by apply (elem_of_concat_map _ _ e1)).
    assert (Hin2 : g2 ∈ sources) by (by apply (elem_of_concat_map _ _ e2)).
    split; [by rewrite Hperm |]. split; [by rewrite Hperm |].
    unfold with_conceptId.
    rewrite (Permutation_length (filter_Permutation_bool _ _ _ Hperm)).
    by apply (two_sources_twice _ ENDPOINTS e1 e2 g1 g2). }
  intros c body' Hc Hbody.
  eapply get_all_games_once_each; [exact Hc | exact Hbody].
Qed.

End merged_file.

Section merged_file_examples.

#[local] Existing Instance code_unit_locale.
#[local] Existing Instance sample_json.
#[local] Existing Instance epoch_iso.

(** Every endpoint answers with the same two games: '/all-data' then
    returns eight records, four of them with conceptId 10001, and
    '/all-games' returns two games, one of them with conceptId 10001. *)
Lemma all_data_against_all_games :
  let r := refreshOnce env_all_ok world_idle in
  (exists merged,
     get_all_data (disk r.2) = R200 (DArray [ mkGroup (Some (lit "ALL")) (Some 8) (Some merged) ]) /\
     length (with_conceptId (Some (KNum 10001)) merged) = 4%nat) /\
  (exists cat,
     (get_all_games (app r.2) (disk r.2)).1 = R200 [cat] /\
     cat_count cat = 2 /\
     length (public_with_conceptId (Some (KNum 10001)) (cat_games cat)) = 1%nat).
Proof.
  cbv zeta. split.
  - eexists. split; vm_compute; reflexivity.
  - eexists. split; [vm_compute; reflexivity |]. split; vm_compute; reflexivity.
Qed.

Lemma all_data_keeps_duplicates_witness :
  exists st w' merged,
    refreshOnce env_all_ok world_idle = (Return (Done false st), w') /\
    get_all_data (disk w')
    = R200 (DArray [ mkGroup (Some (lit "ALL")) (Some (Z.of_nat (length merged)))
                             (Some merged) ]) /\
    (2 <= length (with_conceptId (Some (KNum 10001)) merged))%nat.
Proof.
  destruct (all_data_keeps_duplicates (JsonRoundTrip0 := sample_round_trip)
              env_all_ok world_idle
              (fun _ => sample_snapshot)
              (fun _ => DArray [ mkGroup (Some (lit "PLUS")) (Some 2)
                                   (Some [sample_game 10001 "b"; sample_game 10002 "a"]) ])
              eq_refl)
    as (st & w' & merged & Hrun & _ & Hdata & Htwice & _).
  - intros entry _. split; [reflexivity |]. split; [reflexivity | discriminate].
  - exists st, w', merged. split; [exact Hrun |]. split; [exact Hdata |].
    apply (Htwice ("plus-games-list.txt",
                   "https://www.playstation.com/bin/imagic/gameslist?locale=en-in&categoryList=plus-games-list")
                  ("ubisoft-classics-list.txt",
                   "https://www.playstation.com/bin/imagic/gameslist?locale=en-in&categoryList=ubisoft-classics-list")
                  (sample_game 10001 "b") (sample_game 10001 "b")).
    + left.
    + right. left.
    + discriminate.
    + left.
    + left.
    + reflexivity.
Defined.

End merged_file_examples.

(** ** The order in which the source tasks complete *)

Section completion_order.
Context {Text S : Type} `{!IsoDate}.
Implicit Types (env : Env Text) (ls : StatusMap * World Text S) (w : World Text S).

Local Abbreviation WL := (StatusMap * World Text S)%type.

Lemma same_but_trace_refl ls : same_but_trace ls ls.
Proof. by repeat split. Qed.

Lemma same_but_trace_trans ls1 ls2 ls3 :
  same_but_trace ls1 ls2 -> same_but_trace ls2 ls3 -> same_but_trace ls1 ls3.
Proof.
  intros (? & ? & ? & ? & ?) (? & ? & ? & ? & ?). repeat split; congruence.
Qed.

Lemma source_effect_same (env : Env Text) entry ls1 ls2 :
  same_but_trace ls1 ls2 ->
  same_but_trace (source_effect env entry ls1) (source_effect env entry ls2).
Proof.
  intros (Hst & Hf & Hl & Hd & Ha). unfold source_effect.
  destruct (http_get env entry.2); repeat split; simpl; congruence.
Qed.

Lemma sources_effect_same (env : Env Text) entries ls1 ls2 :
  same_but_trace ls1 ls2 ->
  same_but_trace (sources_effect env entries ls1) (sources_effect env entries ls2).
Proof.
  revert ls1 ls2. induction entries as [| entry entries IH]; intros ls1 ls2 Hsame; [exact Hsame |].
  rewrite !sources_effect_cons. by apply IH, source_effect_same.
Qed.

Lemma source_effect_swap (env : Env Text) a b ls :
  a.1 <> b.1 ->
  same_but_trace (source_effect env a (source_effect env b ls))
                 (source_effect env b (source_effect env a ls)).
Proof.
  intros Hne. unfold source_effect.
  destruct (http_get env a.2), (http_get env b.2); repeat split; simpl; try reflexivity.
  - by apply insert_insert_ne.
  - apply insert_insert_ne. intros Heq. by apply filePath_inj in Heq.
Qed.

(** The tasks settle in any order: whatever the order in which they
    complete, the status map and the directory end up the same. *)
Lemma sources_effect_any_order (env : Env Text) entries entries' ls :
  NoDup (map fst entries) -> Permutation entries entries' ->
  same_but_trace (sources_effect env entries ls) (sources_effect env entries' ls).
Proof.
  intros Hnd Hperm. revert ls.
  induction Hperm as [| e l l' _ IH | a b l | l l' l'' Hp1 IH1 Hp2 IH2]; intros ls.
  - apply same_but_trace_refl.
  - rewrite !sources_effect_cons. apply IH. by apply NoDup_cons in Hnd as [_ ?].
  - rewrite !sources_effect_cons. apply sources_effect_same, source_effect_swap.
    simpl in Hnd. apply NoDup_cons in Hnd as [Hin _]. intros Heq. apply Hin. rewrite Heq. left.
  - eapply same_but_trace_trans; [by apply IH1 |]. apply IH2.
    by rewrite <- (Permutation_map fst Hp1).
Qed.

End completion_order.

(** ** Registration *)

Section registration.
Context {Text S : Type}.

(** [addRefreshListener] appends a function to the listeners and ignores
    anything else; routes.js registers the callback that clears its cache. *)
Lemma addRefreshListener_function (fn : Listener S) (w : World Text S) :
  listeners (addRefreshListener (Some fn) w).2 = listeners w ++ [fn].
Proof. reflexivity. Qed.

Lemma addRefreshListener_other (w : World Text S) :
  addRefreshListener None w = (Return tt, w).
Proof. reflexivity. Qed.

End registration.

(** * Further properties of the code *)

(** ** Staleness, sorting and de-duplication *)

Section staleness_more.
Context {Text : Type}.

(** X1. [needsRefresh] answers [false] exactly when each of the four
    snapshot files is present and was last written at most 172 800 000 ms
    (the value of [THREE_DAYS_MS]) before [now]. *)
Theorem needsRefresh_fresh (now : Z) (d : gmap string (File Text)) :
  needsRefresh now d = false <->
  forall n, n ∈ map fst ENDPOINTS ->
    exists st, d !! filePath n = Some st /\ now - mtimeMs st <= 172800000.
Proof.
  rewrite <- not_true_iff_false, needsRefresh_iff. split.
  - intros Hno n Hn. destruct (d !! filePath n) as [st |] eqn:Hst.
    + exists st. split; [reflexivity |].
      destruct (Z_le_gt_dec (now - mtimeMs st) 172800000) as [Hle | Hgt]; [exact Hle |].
      exfalso. apply Hno. exists n. split; [exact Hn |]. right. exists st. split; [exact Hst | lia].
    + exfalso. apply Hno. exists n. split; [exact Hn |]. by left.
  - intros Hall (n & Hn & [Hnone | (st & Hst & Hold)]);
      destruct (Hall n Hn) as (st' & Hst' & Hyoung); [congruence |].
    assert (st' = st) by congruence. subst. lia.
Qed.
End staleness_more.

Section sort_more.
Context `{Collation}.

(** X3. [sortByName] of refresher.js applied twice gives what it gives
    applied once, and it returns a list that is already in order as it
    is. *)
Theorem sortByName_idempotent (games : list RawGame) :
  Refresher.sortByName (Refresher.sortByName games) = Refresher.sortByName games /\
  (StronglySorted (fun a b => localeCompare (name_or_empty a) (name_or_empty b) <= 0) games ->
   Refresher.sortByName games = games).
Proof.
  assert (Hfix : forall l, StronglySorted (not_after by_name) l -> Refresher.sortByName l = l).
  { intros l Hl. symmetry.
    apply (Array_sort_unique by_name by_name_flip by_name_trans); [exact Hl | reflexivity]. }
  split; [| exact (Hfix games)].
  apply Hfix. apply (Array_sort_sorted by_name by_name_flip by_name_trans).
Qed.

(** X4. [sortByName] of routes.js returns what [sortByName] of
    refresher.js returns when every entry has a name; the only error it
    can raise is the TypeError of reading [localeCompare] off an absent
    name, and then some entry has no name. *)
Theorem routes_sortByName_total_on_named (arr : list RawGame) :
  (Forall (fun g => is_Some (name g)) arr ->
   Routes.sortByName arr = inr (Refresher.sortByName arr)) /\
  (forall e, Routes.sortByName arr = inl e ->
     e = "TypeError: Cannot read properties of undefined (reading 'localeCompare')"
     /\ exists g, g ∈ arr /\ name g = None).
Proof.
  split; [apply routes_sortByName_named |].
  intros e He. apply Array_sort_exn_error in He as (a & b & Ha & _ & Hab).
  unfold compare_names in Hab. destruct (name a) eqn:Hname; [discriminate |].
  injection Hab as <-. split; [reflexivity |]. by exists a.
Qed.
End sort_more.

Section dedupe_more.

Lemma map_has_false {K V} `{EqDecision K} (m : list (K * V)) k :
  map_has m k = false <-> k ∉ map fst m.
Proof.
  unfold map_has. induction m as [| kv m IH]; simpl.
  - split; [intros _ Hin; inversion Hin | reflexivity].
  - rewrite orb_false_iff, IH, not_elem_of_cons, bool_decide_eq_false.
    split; intros [Hne Hr]; (split; [intros Heq; apply Hne; congruence | exact Hr]).
Qed.

Lemma dedupe_fold_sublist merged byId :
  exists kept,
    map_values (fold_left dedupe_step merged byId) = map_values byId ++ kept /\
    sublist kept merged.
Proof.
  revert byId. induction merged as [| g merged IH]; intros byId; simpl fold_left.
  - exists []. split; [by rewrite app_nil_r | constructor].
  - rewrite dedupe_step_eq. destruct (map_has byId (conceptId g)).
    + destruct (IH byId) as (kept & -> & Hsub). exists kept. split; [reflexivity |].
      by apply sublist_cons.
    + destruct (IH (byId ++ [(conceptId g, g)])) as (kept & -> & Hsub).
      exists (g :: kept). split; [| by apply sublist_skip].
      unfold map_values. rewrite map_app, <- app_assoc. reflexivity.
Qed.

Lemma dedupe_fold_distinct merged byId :
  NoDup (map conceptId merged) ->
  (forall g, g ∈ merged -> conceptId g ∉ map fst byId) ->
  map_values (fold_left dedupe_step merged byId) = map_values byId ++ merged.
Proof.
  revert byId. induction merged as [| g merged IH]; intros byId Hnd Hfresh; simpl fold_left.
  - by rewrite app_nil_r.
  - simpl in Hnd. apply NoDup_cons in Hnd as [Hg Hnd].
    rewrite dedupe_step_eq.
    rewrite (proj2 (map_has_false byId (conceptId g))) by (apply Hfresh; left).
    rewrite IH; [| exact Hnd |].
    + unfold map_values. rewrite map_app, <- app_assoc. reflexivity.
    + intros g' Hg'. rewrite map_app. simpl. rewrite elem_of_app, list_elem_of_singleton.
      intros [Hin | Heq].
      * by apply (Hfresh g'); [right |].
      * apply Hg. rewrite <- Heq. apply list_elem_of_In, in_map. by apply list_elem_of_In.
Qed.

Lemma at_most_once_NoDup (l : list RawGame) :
  (forall k, (length (with_conceptId k l) <= 1)%nat) -> NoDup (map conceptId l).
Proof.
  induction l as [| g l IH]; intros Hone; simpl; [constructor |].
  apply NoDup_cons. split.
  - intros Hin. apply list_elem_of_In, in_map_iff in Hin as (g' & Hk & Hin).
    specialize (Hone (conceptId g)). unfold with_conceptId in Hone. simpl in Hone.
    unfold has_conceptId at 1 in Hone. rewrite bool_decide_eq_true_2 in Hone by reflexivity.
    assert (Hg' : In g' (List.filter (has_conceptId (conceptId g)) l)).
    { apply filter_In. split; [exact Hin |]. unfold has_conceptId. by apply bool_decide_eq_true_2. }
    destruct (List.filter (has_conceptId (conceptId g)) l); [destruct Hg' | simpl in Hone; lia].
  - apply IH. intros k. specialize (Hone k). unfold with_conceptId in *. simpl in Hone.
    destruct (has_conceptId k g); simpl in Hone; lia.
Qed.

(** X5. The loop of '/all-games' returns records with pairwise different
    conceptIds, in their input order (a sublist of the input), one for each
    conceptId of the input; it returns an input without repeated conceptIds
    unchanged, and applying it twice changes nothing more. *)
Theorem dedupeByConceptId_distinct (merged : list RawGame) :
  NoDup (map conceptId (dedupeByConceptId merged)) /\
  sublist (dedupeByConceptId merged) merged /\
  (forall g, g ∈ merged ->
     exists g', g' ∈ dedupeByConceptId merged /\ conceptId g' = conceptId g) /\
  (NoDup (map conceptId merged) -> dedupeByConceptId merged = merged) /\
  dedupeByConceptId (dedupeByConceptId merged) = dedupeByConceptId merged.
Proof.
  assert (Hnd : NoDup (map conceptId (dedupeByConceptId merged))).
  { apply at_most_once_NoDup. intros k. rewrite dedupe_keeps_first.
    destruct (first_with_conceptId k merged); simpl; lia. }
  assert (Hfix : forall l, NoDup (map conceptId l) -> dedupeByConceptId l = l).
  { intros l Hl. unfold dedupeByConceptId. rewrite dedupe_fold_distinct; [reflexivity | exact Hl |].
    intros g _ Hin. inversion Hin. }
  split; [exact Hnd |]. split; [| split; [| split; [exact (Hfix merged) | by apply Hfix]]].
  - unfold dedupeByConceptId. destruct (dedupe_fold_sublist merged []) as (kept & -> & Hsub).
    exact Hsub.
  - intros g Hg.
    destruct (first_with_conceptId_Some (conceptId g) merged g Hg eq_refl) as [g' Hg'].
    exists g'. pose proof (dedupe_keeps_first (conceptId g) merged) as Hkeep.
    rewrite Hg' in Hkeep. simpl in Hkeep.
    assert (Hin : In g' (with_conceptId (conceptId g) (dedupeByConceptId merged)))
      by (rewrite Hkeep; left; reflexivity).
    apply filter_In in Hin as [Hin Hk]. split; [by apply list_elem_of_In |].
    unfold has_conceptId in Hk. by apply bool_decide_eq_true in Hk.
Qed.

End dedupe_more.

(** ** [generateAllMerged] *)

Lemma mapE_error {A B} (f : A -> Exn + B) (l : list A) x e :
  x ∈ l -> f x = inl e -> exists x' e', x' ∈ l /\ f x' = inl e' /\ mapE f l = inl e'.
Proof.
  induction l as [| y l IH]; intros Hin Hx; [inversion Hin |].
  simpl. destruct (f y) as [e1 | b] eqn:Hy.
  - exists y, e1. split; [left | by split].
  - apply elem_of_cons in Hin as [-> | Hin]; [congruence |].
    destruct (IH Hin Hx) as (x' & e' & Hin' & Hx' & ->).
    exists x', e'. split; [by right | by split].
Qed.

Section merge_more.
Context {Text S : Type} `{!Json Text} `{!LocaleCompare} `{!IsoDate}.
Implicit Types (env : Env Text) (w : World Text S).

(** X6. [generateAllMerged] is all or nothing on the directory: if it
    throws, the world is exactly as before (nothing was written); if it
    returns, it has written one file, all.txt, and every other file, the
    flag, the listeners and the subscriber's state are as before. *)
Theorem generateAllMerged_all_or_nothing env w :
  match generateAllMerged env w with
  | (Throw _, w') => w' = w
  | (Return _, w') =>
      (exists txt, trace w' = trace w ++ [EvWrite (filePath "all.txt") txt] /\
                   content <$> disk w' !! filePath "all.txt" = Some txt) /\
      (forall p, p <> filePath "all.txt" -> disk w' !! p = disk w !! p) /\
      isRefreshing w' = isRefreshing w /\ listeners w' = listeners w /\ app w' = app w
  end.
Proof.
  rewrite generateAllMerged_run.
  destruct (merged_payload (disk w)) as [e | payload]; [reflexivity |].
  cbn [trace disk isRefreshing listeners app].
  split; [| split; [| done]].
  - eexists. split; [reflexivity |]. by rewrite lookup_insert_eq.
  - intros p Hp. by rewrite lookup_insert_ne.
Qed.

(** X7. [generateAllMerged] needs all four snapshots: if one of them is
    absent, unparsable, or parses to a value that is neither an array nor
    falsy, it throws and writes nothing. *)
Theorem generateAllMerged_needs_every_source env w (n : string) :
  n ∈ map fst ENDPOINTS ->
  (disk w !! filePath n = None \/
   exists f, disk w !! filePath n = Some f /\
             (JSON_parse (content f) = None \/ JSON_parse (content f) = Some DOther)) ->
  exists e, generateAllMerged env w = (Throw e, w).
Proof.
  intros Hn Hbad. rewrite generateAllMerged_run.
  assert (Hfail : exists e, merged_payload (disk w) = inl e);
    [| destruct Hfail as [e ->]; by exists e].
  unfold merged_payload.
  destruct (mapE (read_snapshot (disk w)) (map fst ENDPOINTS)) as [e | rawArr] eqn:Hread;
    [by exists e |].
  destruct Hbad as [Hnone | (f & Hf & Hparse)].
  { destruct (mapE_error (read_snapshot (disk w)) _ n
                ("ENOENT: no such file or directory, open " +:+ filePath n) Hn) as (? & ? & _ & _ & Hm).
    - unfold read_snapshot. by rewrite Hnone.
    - congruence. }
  assert (Hraw : content f ∈ rawArr).
  { clear Hparse. revert rawArr Hread Hn. generalize (map fst ENDPOINTS). intros names.
    induction names as [| m names IH]; intros rawArr Hread Hn; [inversion Hn |].
    simpl in Hread. destruct (read_snapshot (disk w) m) as [? | txt] eqn:Hm; [discriminate |].
    destruct (mapE (read_snapshot (disk w)) names) as [? | rest] eqn:Hrest; [discriminate |].
    injection Hread as <-. apply elem_of_cons in Hn as [-> | Hn].
    - unfold read_snapshot in Hm. rewrite Hf in Hm. injection Hm as <-. left.
    - right. by apply IH. }
  destruct (mapE parse_snapshot rawArr) as [e | parsed] eqn:Hparsed; [by exists e |].
  destruct Hparse as [Hsyntax | Hother].
  { destruct (mapE_error parse_snapshot rawArr (content f) "SyntaxError: JSON.parse" Hraw)
      as (? & ? & _ & _ & Hm).
    - unfold parse_snapshot. by rewrite Hsyntax.
    - congruence. }
  assert (Hdoc : DOther ∈ parsed).
  { clear Hread. revert parsed Hparsed Hraw.
    induction rawArr as [| txt rawArr IH]; intros parsed Hparsed Hraw;
      [inversion Hraw |].
    simpl in Hparsed. destruct (parse_snapshot txt) as [? | doc] eqn:Htxt; [discriminate |].
    destruct (mapE parse_snapshot rawArr) as [? | rest] eqn:Hrest; [discriminate |].
    injection Hparsed as <-. apply elem_of_cons in Hraw as [<- | Hraw].
    - unfold parse_snapshot in Htxt. rewrite Hother in Htxt. injection Htxt as <-. left.
    - right. by apply IH. }
  destruct (mapE_error doc_games parsed DOther
              "TypeError: (grouped || []).flatMap is not a function" Hdoc eq_refl)
    as (? & e' & _ & _ & ->).
  by exists e'.
Qed.

End merge_more.

(** ** [refreshOnce]: the success path and the failed merge *)

Section refresh_more.
Context {Text S : Type} `{!Json Text} `{!LocaleCompare} `{!IsoDate}.
Implicit Types (env : Env Text) (w : World Text S).

(** The run when every endpoint answers with a text that parses to an
    array of groups or to a falsy value. *)
Lemma refreshOnce_success_form env w (body : string -> Text) (doc : string -> Doc) :
  isRefreshing w = false ->
  (forall entry, entry ∈ ENDPOINTS ->
     http_get env entry.2 = inr (body entry.2) /\
     JSON_parse (body entry.2) = Some (doc entry.2) /\
     doc entry.2 <> DOther) ->
  refreshOnce env w
  = (Return (Done false
               (all_status env (sources_effect env ENDPOINTS (∅, with_flag true w)).1)),
     with_flag false
       (notified_world
          (all_status env (sources_effect env ENDPOINTS (∅, with_flag true w)).1)
          (merged_world env (sources_effect env ENDPOINTS (∅, with_flag true w)).2
             (all_payload (map (fun entry => games_of_doc (doc entry.2)) ENDPOINTS))))).
Proof.
  intros Hflag Hall.
  rewrite refreshOnce_settled; [| exact Hflag |]; cycle 1.
  { intros entry Hin. exists (body entry.2). apply (Hall entry Hin). }
  rewrite (merged_payload_fetched env _ body doc) by (intros entry Hin; split; apply (Hall entry Hin)).
  rewrite (mapE_all doc_games games_of_doc); cycle 1.
  { intros d Hd. apply doc_games_ok. apply list_elem_of_In, in_map_iff in Hd as (entry & <- & Hin).
    apply list_elem_of_In in Hin. apply (Hall entry Hin). }
  by rewrite map_map.
Qed.

Lemma success_status_keys env w (body : string -> Text) key :
  (forall entry, entry ∈ ENDPOINTS -> http_get env entry.2 = inr (body entry.2)) ->
  is_Some (all_status env (sources_effect env ENDPOINTS (∅, w)).1 !! key)
  <-> key = "all.txt" \/ key ∈ map fst ENDPOINTS.
Proof.
  intros Hall. unfold all_status. destruct (decide (key = "all.txt")) as [-> | Hne].
  - rewrite lookup_insert_eq. split; [by left | done].
  - rewrite lookup_insert_ne by done. rewrite sources_status_keys. split.
    + intros (url & data & Hin & _). right. apply (elem_of_map_fst (key, url)), Hin.
    + intros [? | Hin]; [done |].
      apply list_elem_of_In, in_map_iff in Hin as ([fname url] & <- & Hin).
      apply list_elem_of_In in Hin. exists url, (body url). split; [exact Hin | apply (Hall _ Hin)].
Qed.

(** Every call of [refreshOnce] returns, and leaves the flag as it found
    it. *)
Lemma refreshOnce_returns env w :
  exists r w', refreshOnce env w = (Return r, w') /\ isRefreshing w' = isRefreshing w.
Proof.
  destruct (isRefreshing w) eqn:Hflag.
  - exists InProgress, w. split; [by apply refreshOnce_guard | exact Hflag].
  - rewrite refreshOnce_enter by exact Hflag.
    destruct (finally_clears_flag (try_catch (refresh_try env) refresh_catch) ∅ (with_flag true w))
      as (ls & Hrun & Hfin).
    destruct (try_catch_returns (refresh_try env) refresh_catch (∅, with_flag true w))
      as (r & ls' & Hret).
    { intros e s1. destruct (refresh_catch_returns e s1) as (r & ls' & Hr & _). by exists r, ls'. }
    destruct (with_local _ _ _) as [o w'] eqn:Hout. simpl in Hrun, Hfin.
    rewrite Hret in Hrun. injection Hrun as <- <-. exists r, w'. by subst w'.
Qed.

(** X8. If all four fetches succeed and one fetched text is not JSON,
    [refreshOnce] returns [{ error, statuses }] with the SyntaxError and
    the four source statuses; the snapshot files hold the fetched texts,
    the malformed one included; all.txt is not written, no listener is
    called and the flag is clear. *)
Theorem refresh_unparsable_body env w (body : string -> Text) (bad : string * string) :
  isRefreshing w = false ->
  (forall entry, entry ∈ ENDPOINTS -> http_get env entry.2 = inr (body entry.2)) ->
  bad ∈ ENDPOINTS -> JSON_parse (body bad.2) = None ->
  exists st w',
    refreshOnce env w = (Return (Failed "SyntaxError: JSON.parse" st), w') /\
    (forall key, is_Some (st !! key) <-> key ∈ map fst ENDPOINTS) /\
    (forall entry, entry ∈ ENDPOINTS ->
       content <$> disk w' !! filePath entry.1 = Some (body entry.2)) /\
    disk w' !! filePath "all.txt" = disk w !! filePath "all.txt" /\
    trace w'
    = trace w ++ sources_events env
              ++ [EvConsoleError "[refresher] refresh failed: SyntaxError: JSON.parse"] /\
    app w' = app w /\ isRefreshing w' = false.
Proof.
  intros Hflag Hall Hbad Hparse.
  rewrite refreshOnce_settled; [| exact Hflag | by intros entry Hin; exists (body entry.2); apply Hall].
  set (ls4 := sources_effect env ENDPOINTS (∅, with_flag true w)).
  assert (Hpayload : merged_payload (disk ls4.2) = inl "SyntaxError: JSON.parse").
  { unfold merged_payload. rewrite mapE_map.
    rewrite (mapE_all _ (fun entry => body entry.2)); cycle 1.
    { intros [fname url] Hin. unfold read_snapshot, ls4.
      rewrite (sources_effect_disk_written env ENDPOINTS _ fname url (body url));
        [reflexivity | apply ENDPOINTS_NoDup | exact Hin | apply (Hall _ Hin)]. }
    rewrite mapE_map.
    destruct (mapE_error (fun x => parse_snapshot (body x.2)) ENDPOINTS bad
                "SyntaxError: JSON.parse" Hbad) as (x' & e' & _ & Hx' & ->).
    { unfold parse_snapshot. by rewrite Hparse. }
    unfold parse_snapshot in Hx'. destruct (JSON_parse (body x'.2)); [discriminate |].
    by injection Hx' as <-. }
  rewrite Hpayload. eexists _, _. split; [reflexivity |].
  destruct (sources_effect_frame env ENDPOINTS (∅, with_flag true w)) as (_ & _ & Happ).
  cbn [with_flag failed_world disk trace app isRefreshing].
  split.
  { intros key. unfold ls4. rewrite sources_status_keys. split.
    - intros (url & data & Hin & _). apply (elem_of_map_fst (key, url)), Hin.
    - intros Hin. apply list_elem_of_In, in_map_iff in Hin as ([fname url] & <- & Hin).
      apply list_elem_of_In in Hin. exists url, (body url). split; [exact Hin | apply (Hall _ Hin)]. }
  split.
  { intros [fname url] Hin. unfold ls4.
    erewrite sources_effect_disk_written;
      [reflexivity | apply ENDPOINTS_NoDup | exact Hin | apply (Hall _ Hin)]. }
  split.
  { unfold ls4. rewrite sources_effect_disk_other; [reflexivity |].
    intros [fname url] data Hin _ Heq. apply filePath_inj in Heq.
    by apply (all_txt_not_source fname url). }
  split; [| split; [exact Happ | reflexivity]].
  unfold ls4. rewrite sources_effect_trace. cbn [snd with_flag trace].
  unfold sources_events. by rewrite <- app_assoc.
Qed.

(** X9. After a refresh in which every source succeeded, nothing is
    stale: [needsRefresh] answers [false] at any time [now] that is at most
    [THREE_DAYS_MS] after the times at which the four snapshots were
    written. *)
Theorem refresh_then_fresh env w (body : string -> Text) (doc : string -> Doc) (now : Z) :
  isRefreshing w = false ->
  (forall entry, entry ∈ ENDPOINTS ->
     http_get env entry.2 = inr (body entry.2) /\
     JSON_parse (body entry.2) = Some (doc entry.2) /\
     doc entry.2 <> DOther) ->
  (forall entry, entry ∈ ENDPOINTS -> now - clock env (filePath entry.1) <= THREE_DAYS_MS) ->
  needsRefresh now (disk (refreshOnce env w).2) = false.
Proof.
  intros Hflag Hall Hclock.
  rewrite (refreshOnce_success_form env w body doc Hflag Hall).
  cbn [snd with_flag notified_world merged_world disk].
  apply not_true_iff_false. rewrite needsRefresh_iff.
  intros (n & Hn & Hstale).
  apply list_elem_of_In, in_map_iff in Hn as ([fname url] & <- & Hin).
  apply list_elem_of_In in Hin. cbn [fst] in Hstale.
  rewrite lookup_insert_ne in Hstale
    by (intros Heq; apply filePath_inj in Heq; by apply (all_txt_not_source fname url)).
  rewrite (sources_effect_disk_written env ENDPOINTS _ fname url (body url)) in Hstale;
    [| apply ENDPOINTS_NoDup | exact Hin | apply (Hall _ Hin)].
  destruct Hstale as [Hnone | (st & Hst & Hold)]; [discriminate |].
  injection Hst as <-. cbn [mtimeMs] in Hold.
  specialize (Hclock _ Hin). cbn [fst] in Hclock. unfold THREE_DAYS_MS in Hclock. lia.
Qed.

(** X10. The order in which the four source tasks complete does not
    matter: run in any order, they settle with the same outcomes and leave
    the same status map, directory and subscriber state (the trace records
    the order). *)
Theorem source_tasks_any_order env (entries' : list (string * string))
    (ls : StatusMap * World Text S) :
  Permutation ENDPOINTS entries' ->
  exists results results' s s',
    map_m (fun entry => settle (refresh_source env entry)) ENDPOINTS ls = (Return results, s) /\
    map_m (fun entry => settle (refresh_source env entry)) entries' ls = (Return results', s') /\
    Permutation results results' /\
    existsb is_rejected results = existsb is_rejected results' /\
    same_but_trace s s'.
Proof.
  intros Hperm. rewrite !run_sources. eexists _, _, _, _.
  split; [reflexivity |]. split; [reflexivity |].
  split; [by apply Permutation_map |].
  split.
  - apply eq_true_iff_eq. rewrite !existsb_exists.
    split; intros (r & Hin & Hr); exists r; (split; [| exact Hr]).
    + by apply (Permutation_in _ (Permutation_map _ Hperm)).
    + by apply (Permutation_in _ (Permutation_sym (Permutation_map _ Hperm))).
  - apply sources_effect_any_order; [apply ENDPOINTS_NoDup | exact Hperm].
Qed.

(** X11. [maybeRefresh] never throws and leaves the flag as it found it;
    it does nothing at all when no snapshot is stale, and otherwise does
    what [refreshOnce] does. *)
Theorem maybeRefresh_behaviour env (now : Z) w :
  (exists w', maybeRefresh env now w = (Return tt, w') /\ isRefreshing w' = isRefreshing w) /\
  (needsRefresh now (disk w) = false -> maybeRefresh env now w = (Return tt, w)) /\
  (needsRefresh now (disk w) = true ->
   maybeRefresh env now w = (Return tt, (refreshOnce env w).2)).
Proof.
  destruct (refreshOnce_returns env w) as (r & w' & Hrun & Hflag).
  assert (Hstale : needsRefresh now (disk w) = true ->
                   maybeRefresh env now w = (Return tt, (refreshOnce env w).2)).
  { intros Hneeds. unfold maybeRefresh, try_catch.
    erewrite bind_run by reflexivity. rewrite Hneeds.
    erewrite bind_run by exact Hrun. by rewrite Hrun. }
  assert (Hfresh : needsRefresh now (disk w) = false -> maybeRefresh env now w = (Return tt, w)).
  { intros Hneeds. unfold maybeRefresh, try_catch.
    erewrite bind_run by reflexivity. by rewrite Hneeds. }
  split; [| by split].
  destruct (needsRefresh now (disk w)).
  - exists w'. rewrite Hstale by reflexivity. by rewrite Hrun.
  - exists w. by rewrite Hfresh.
Qed.

End refresh_more.

Section refresh_with_cache.
Context {Text : Type} `{!Json Text} `{!LocaleCompare} `{!IsoDate}.

(** X12. Full success, with the callback of routes.js as the one
    registered listener: when every endpoint answers with a text that
    parses, [refreshOnce] returns [{ anyRejected: false, statuses }] with a
    status for each source and for all.txt; every snapshot file holds the
    fetched text; all.txt is regenerated from the fetched snapshots (not
    from what the directory held before); the listener is called once, so
    the five cache entries are cleared; and the flag is clear. *)
Theorem refresh_full_success (env : Env Text) (w : World Text Cache)
    (body : string -> Text) (doc : string -> Doc) :
  isRefreshing w = false ->
  listeners w = [invalidate_cache] ->
  (forall entry, entry ∈ ENDPOINTS ->
     http_get env entry.2 = inr (body entry.2) /\
     JSON_parse (body entry.2) = Some (doc entry.2) /\
     doc entry.2 <> DOther) ->
  exists st w',
    refreshOnce env w = (Return (Done false st), w') /\
    (forall key, is_Some (st !! key) <-> key = "all.txt" \/ key ∈ map fst ENDPOINTS) /\
    (forall entry, entry ∈ ENDPOINTS ->
       content <$> disk w' !! filePath entry.1 = Some (body entry.2)) /\
    content <$> disk w' !! filePath "all.txt"
    = Some (JSON_stringify
              (all_payload (map (fun entry => games_of_doc (doc entry.2)) ENDPOINTS))) /\
    trace w'
    = trace w ++ sources_events env
              ++ [EvWrite (filePath "all.txt")
                    (JSON_stringify
                       (all_payload (map (fun entry => games_of_doc (doc entry.2)) ENDPOINTS)));
                  EvNotify 0 st] /\
    app w' = empty_cache /\ isRefreshing w' = false.
Proof.
  intros Hflag Hlisteners Hall.
  rewrite (refreshOnce_success_form env w body doc Hflag Hall).
  eexists _, _. split; [reflexivity |].
  destruct (sources_effect_frame env ENDPOINTS (∅, with_flag true w)) as (_ & Hl & Ha).
  cbn [snd with_flag listeners app] in Hl, Ha.
  cbn [with_flag notified_world merged_world disk trace app listeners isRefreshing].
  rewrite Hl, Ha, Hlisteners.
  split; [intros key; apply (success_status_keys env _ body); intros entry Hin; apply (Hall _ Hin) |].
  split.
  { intros [fname url] Hin.
    rewrite lookup_insert_ne
      by (intros Heq; apply filePath_inj in Heq; by apply (all_txt_not_source fname url)).
    erewrite sources_effect_disk_written;
      [reflexivity | apply ENDPOINTS_NoDup | exact Hin | apply (Hall _ Hin)]. }
  split; [by rewrite lookup_insert_eq |].
  split; [| done].
  rewrite sources_effect_trace. cbn [snd with_flag trace notify_run invalidate_cache fst].
  unfold sources_events, notify_events, listener_error_log. simpl.
  by rewrite app_nil_r, <- !app_assoc.
Qed.

End refresh_with_cache.

(** ** 'POST /admin/refresh' *)

Section admin_more.
Context {Text S : Type} `{!Json Text} `{!LocaleCompare} `{!IsoDate}.
Implicit Types (env : Env Text) (w : World Text S).


(** X13. A request whose [x-admin-token] header is absent, empty or
    different from the configured token is answered 401 and touches
    nothing: no fetch is issued, no file is written, the flag is not
    set. *)
Theorem admin_refresh_unauthorized (env_ADMIN_TOKEN : option string) env w
    (token : option string) :
  token <> Some (ADMIN_TOKEN env_ADMIN_TOKEN) ->
  post_admin_refresh env_ADMIN_TOKEN env token w = (Return Admin401, w).
Proof.
  intros Hwrong. unfold post_admin_refresh, try_catch.
  destruct token as [t |]; [| reflexivity].
  destruct (String.eqb t "") eqn:Hempty; [reflexivity |].
  destruct (String.eqb t (ADMIN_TOKEN env_ADMIN_TOKEN)) eqn:Heq; [| reflexivity].
  apply String.eqb_eq in Heq. congruence.
Qed.


End admin_more.

(** ** The per-catalogue routes and the cache *)

Section routes_more.
Context {Text : Type} `{!Json Text} `{!LocaleCompare}.
Implicit Types (r : CatalogueRoute) (c : Cache) (d : gmap string (File Text)).

Lemma route_source_endpoint r : route_source r ∈ ENDPOINTS.
Proof. destruct r; apply (bool_decide_unpack _); vm_compute; exact I. Qed.

Lemma route_handler_hit r c d body :
  route_entry r c = Some body -> route_handler r c d = (R200 body, c).
Proof.
  intros Hhit.
  destruct r; simpl in Hhit; simpl;
    unfold get_included_games, get_included_classics, get_monthly_games, get_ubisoft_classics;
    by rewrite Hhit.
Qed.

Lemma route_handler_miss r c d :
  route_entry r c = None ->
  route_handler r c d
  = match build_catalogue d (route_path r) (route_name r) (route_description r) with
    | inr body => (R200 body, set_route_entry r body c)
    | inl e => (R500 (route_error r) e, c)
    end.
Proof.
  intros Hmiss.
  destruct r; simpl in Hmiss; simpl;
    unfold get_included_games, get_included_classics, get_monthly_games, get_ubisoft_classics;
    by rewrite Hmiss.
Qed.

(** The [try] block of a route, by what the snapshot file holds. *)
Lemma build_catalogue_run d r catalogueName description :
  build_catalogue d (route_path r) catalogueName description
  = match d !! filePath (route_source r).1 with
    | None => inl ("ENOENT: no such file or directory, open " +:+ filePath (route_source r).1)
    | Some f =>
        match JSON_parse (content f) with
        | None => inl "SyntaxError: JSON.parse"
        | Some (DArray groups) =>
            match Routes.sortByName (flat_games groups) with
            | inl e => inl e
            | inr sorted =>
                inr [ mkCatalogue catalogueName description
                        (Z.of_nat (length sorted)) (map toPublicGame sorted) ]
            end
        | Some _ => inl "TypeError: data.flatMap is not a function"
        end
    end.
Proof.
  unfold build_catalogue, readJsonFile, readFileSync, JSON_parse_exn.
  replace (path_join (route_path r)) with (filePath (route_source r).1)
    by (by destruct r).
  destruct (d !! filePath (route_source r).1) as [f |]; [| reflexivity].
  destruct (JSON_parse (content f)) as [[groups | |] |]; try reflexivity.
  unfold flatten_groups, flat_games.
  destruct (Routes.sortByName _); [reflexivity |]. by rewrite length_map.
Qed.

Lemma build_catalogue_named d r f groups :
  d !! filePath (route_source r).1 = Some f ->
  JSON_parse (content f) = Some (DArray groups) ->
  Forall named (flat_games groups) ->
  build_catalogue d (route_path r) (route_name r) (route_description r)
  = inr (route_catalogue r (flat_games groups)).
Proof.
  intros Hf Hparse Hnamed.
  rewrite build_catalogue_run, Hf, Hparse, routes_sortByName_named by exact Hnamed.
  assert (Hlen : length (Refresher.sortByName (flat_games groups))
                 = length (flat_games groups))
    by apply Permutation_length, Array_sort_perm.
  unfold route_catalogue. by rewrite Hlen.
Qed.

(** X15. A per-catalogue route on a cache miss: if the snapshot file holds an
    array of groups whose games all have a name, the route answers 200 with
    one catalogue that holds every game of the file, none dropped and none
    de-duplicated, sorted by name and mapped to the public shape, with
    their number as the count; it memoizes that answer in its own cache
    entry and leaves the other four entries as they are. *)
Theorem catalogue_route_serves r c d (f : File Text) (groups : list Group) :
  route_entry r c = None ->
  d !! filePath (route_source r).1 = Some f ->
  JSON_parse (content f) = Some (DArray groups) ->
  Forall named (flat_games groups) ->
  let body := route_catalogue r (flat_games groups) in
  route_handler r c d = (R200 body, set_route_entry r body c) /\
  (exists cat, body = [cat] /\
     cat_count cat = Z.of_nat (length (flat_games groups)) /\
     Permutation (cat_games cat) (map toPublicGame (flat_games groups))) /\
  route_entry r (route_handler r c d).2 = Some body /\
  (forall r', r' <> r -> route_entry r' (route_handler r c d).2 = route_entry r' c) /\
  all (route_handler r c d).2 = all c.
Proof.
  intros Hmiss Hf Hparse Hnamed body.
  assert (Hrun : route_handler r c d = (R200 body, set_route_entry r body c)).
  { rewrite route_handler_miss by exact Hmiss.
    by rewrite (build_catalogue_named d r f groups). }
  rewrite Hrun. split; [reflexivity |]. split.
  { eexists. split; [reflexivity |]. split; [reflexivity |].
    cbn [cat_games]. apply Permutation_map, Array_sort_perm. }
  split; [by destruct r |].
  split; [| by destruct r].
  intros r' Hne. destruct r, r'; try reflexivity; by destruct Hne.
Qed.

Lemma catalogue_route_failure_form r c d :
  route_entry r c = None ->
  (d !! filePath (route_source r).1 = None \/
   exists f, d !! filePath (route_source r).1 = Some f /\
             forall groups, JSON_parse (content f) <> Some (DArray groups)) ->
  exists details, route_handler r c d = (R500 (route_error r) details, c).
Proof.
  intros Hmiss Hbad. rewrite route_handler_miss, build_catalogue_run by exact Hmiss.
  destruct Hbad as [-> | (f & -> & Hparse)]; [by eexists |].
  destruct (JSON_parse (content f)) as [[groups | |] |]; try (by eexists).
  by destruct (Hparse groups).
Qed.

(** X16. A per-catalogue route on a cache miss answers 500, with the route's
    own error text, and memoizes nothing when its snapshot file is absent,
    is not JSON, or is JSON that is not an array (a [null] included); and
    whenever it answers 500 the cache is as it was. *)
Theorem catalogue_route_failure r c d :
  route_entry r c = None ->
  (d !! filePath (route_source r).1 = None \/
   exists f, d !! filePath (route_source r).1 = Some f /\
             forall groups, JSON_parse (content f) <> Some (DArray groups)) ->
  exists details,
    route_handler r c d = (R500 (route_error r) details, c) /\
    forall d', (exists f groups, d' !! filePath (route_source r).1 = Some f /\
                  JSON_parse (content f) = Some (DArray groups) /\
                  Forall named (flat_games groups)) ->
               exists body, (route_handler r (route_handler r c d).2 d').1 = R200 body.
Proof.
  intros Hmiss Hbad.
  destruct (catalogue_route_failure_form r c d Hmiss Hbad) as [details Hrun].
  exists details. split; [exact Hrun |].
  intros d' (f & groups & Hf & Hparse & Hnamed). rewrite Hrun. cbn [snd].
  rewrite route_handler_miss by exact Hmiss.
  rewrite (build_catalogue_named d' r f groups Hf Hparse Hnamed). by eexists.
Qed.

(** X17. Once a per-catalogue route has answered 200, it answers every later
    request with the same body whatever the directory holds by then, and
    the cache does not change any more; a 500 leaves the cache as it
    was. *)
Theorem catalogue_route_memoizes r c d :
  match (route_handler r c d).1 with
  | R200 body =>
      forall d', route_handler r (route_handler r c d).2 d'
                 = (R200 body, (route_handler r c d).2)
  | R500 _ _ => (route_handler r c d).2 = c
  end.
Proof.
  destruct (route_entry r c) as [cached |] eqn:Hentry.
  - rewrite (route_handler_hit r c d cached Hentry). cbn [fst snd].
    intros d'. by apply route_handler_hit.
  - rewrite route_handler_miss by exact Hentry.
    destruct (build_catalogue _ _ _ _) as [e | body]; cbn [fst snd]; [reflexivity |].
    intros d'. apply route_handler_hit. by destruct r.
Qed.

(** X18. '/all-games' memoizes in the same way, and never touches the entries
    of the four per-catalogue routes. *)
Theorem all_games_memoizes c d :
  match (get_all_games c d).1 with
  | R200 body =>
      forall d', get_all_games (get_all_games c d).2 d' = (R200 body, (get_all_games c d).2)
  | R500 _ _ => (get_all_games c d).2 = c
  end /\
  forall r, route_entry r (get_all_games c d).2 = route_entry r c.
Proof.
  unfold get_all_games. destruct (all c) as [cached |] eqn:Hall; cbn [fst snd].
  - split; [| reflexivity]. intros d'. by rewrite Hall.
  - destruct (build_all_games d) as [e | body]; cbn [fst snd].
    + split; reflexivity.
    + split; [reflexivity | by intros []].
Qed.

End routes_more.

(** ** A refresh, then the routes *)

Section refresh_then_routes.
Context {Text : Type} `{!Json Text} `{!LocaleCompare} `{!IsoDate}.

(** The world after a refresh in which every source succeeded, with the
    callback of routes.js as the one registered listener. *)
Lemma refresh_success_world (env : Env Text) (w : World Text Cache)
    (body : string -> Text) (doc : string -> Doc) :
  isRefreshing w = false ->
  listeners w = [invalidate_cache] ->
  (forall entry, entry ∈ ENDPOINTS ->
     http_get env entry.2 = inr (body entry.2) /\
     JSON_parse (body entry.2) = Some (doc entry.2) /\
     doc entry.2 <> DOther) ->
  (exists st, (refreshOnce env w).1 = Return (Done false st)) /\
  app (refreshOnce env w).2 = empty_cache /\
  forall entry, entry ∈ ENDPOINTS ->
    disk (refreshOnce env w).2 !! filePath entry.1
    = Some (mkFile (body entry.2) (clock env (filePath entry.1))).
Proof.
  intros Hflag Hlisteners Hall.
  rewrite (refreshOnce_success_form env w body doc Hflag Hall).
  split; [by eexists |].
  destruct (sources_effect_frame env ENDPOINTS (∅, with_flag true w)) as (_ & Hl & Ha).
  cbn [snd with_flag listeners app] in Hl, Ha.
  cbn [fst snd with_flag notified_world merged_world disk trace app listeners isRefreshing].
  rewrite Hl, Hlisteners. split; [reflexivity |].
  intros [fname url] Hin. cbn [fst snd].
  rewrite lookup_insert_ne
    by (intros Heq; apply filePath_inj in Heq; by apply (all_txt_not_source fname url)).
  apply (sources_effect_disk_written env ENDPOINTS _ fname url);
    [apply ENDPOINTS_NoDup | exact Hin | apply (Hall _ Hin)].
Qed.

(** X19. After a refresh in which every source succeeded, a per-catalogue
    route answers with the catalogue that was just fetched, whatever its
    cache entry held before the refresh, provided the fetched text is an
    array of groups whose games all have a name. A fetched text that is a
    falsy JSON value, such as [null], is accepted by the refresh, which
    succeeds all the same, and the route then answers 500. *)
Theorem refresh_then_route (env : Env Text) (w : World Text Cache)
    (body : string -> Text) (doc : string -> Doc) (r : CatalogueRoute) :
  isRefreshing w = false ->
  listeners w = [invalidate_cache] ->
  (forall entry, entry ∈ ENDPOINTS ->
     http_get env entry.2 = inr (body entry.2) /\
     JSON_parse (body entry.2) = Some (doc entry.2) /\
     doc entry.2 <> DOther) ->
  (exists st, (refreshOnce env w).1 = Return (Done false st)) /\
  match doc (route_source r).2 with
  | DArray groups =>
      Forall named (flat_games groups) ->
      (route_handler r (app (refreshOnce env w).2) (disk (refreshOnce env w).2)).1
      = R200 (route_catalogue r (flat_games groups))
  | DFalsy | DOther =>
      exists details,
        (route_handler r (app (refreshOnce env w).2) (disk (refreshOnce env w).2)).1
        = R500 (route_error r) details
  end.
Proof.
  intros Hflag Hlisteners Hall.
  destruct (refresh_success_world env w body doc Hflag Hlisteners Hall)
    as (Hdone & Happ & Hdisk).
  split; [exact Hdone |].
  pose proof (route_source_endpoint r) as Hin.
  destruct (Hall _ Hin) as (_ & Hparse & Hdoc).
  specialize (Hdisk _ Hin). rewrite Happ.
  assert (Hmiss : route_entry r empty_cache = None) by (by destruct r).
  destruct (doc (route_source r).2) as [groups | |] eqn:Hshape.
  - intros Hnamed. rewrite route_handler_miss by exact Hmiss.
    by rewrite (build_catalogue_named _ r _ groups Hdisk Hparse Hnamed).
  - destruct (catalogue_route_failure_form r empty_cache (disk (refreshOnce env w).2) Hmiss)
      as [details ->]; [| by exists details].
    right. eexists. split; [exact Hdisk |]. cbn [content]. intros groups. by rewrite Hparse.
  - by destruct Hdoc.
Qed.

End refresh_then_routes.

(** ** The public shape of a game *)




(** ** Examples for the further properties *)

Section further_examples.

#[local] Existing Instance code_unit_locale.
#[local] Existing Instance sample_json.
#[local] Existing Instance epoch_iso.


Lemma sortByName_idempotent_witness :
  let games := [sample_game 1 "b"; sample_game 2 "a"; nameless None; sample_game 3 "b"] in
  Refresher.sortByName (Refresher.sortByName games) = Refresher.sortByName games.
Proof.
  intros games.
  apply (@sortByName_idempotent code_unit_locale code_unit_collation games).
Defined.

(** In an empty directory, [generateAllMerged] throws and writes nothing. *)
Lemma generateAllMerged_needs_every_source_witness :
  exists e, generateAllMerged env_all_ok world_idle = (Throw e, world_idle).
Proof.
  apply (generateAllMerged_needs_every_source env_all_ok world_idle "plus-games-list.txt").
  - left.
  - left. reflexivity.
Defined.

(** One endpoint answers with a text that is not JSON. *)
Lemma refresh_unparsable_body_witness :
  exists st w',
    refreshOnce env_bad_json world_idle
    = (Return (Failed "SyntaxError: JSON.parse" st), w') /\
    disk w' !! filePath "all.txt" = None /\
    app w' = app world_idle /\ isRefreshing w' = false.
Proof.
  destruct (refresh_unparsable_body env_bad_json world_idle
              (fun url =>
                 if String.eqb url
                      "https://www.playstation.com/bin/imagic/gameslist?locale=en-in&categoryList=plus-games-list"
                 then Malformed else sample_snapshot)
              ("plus-games-list.txt",
               "https://www.playstation.com/bin/imagic/gameslist?locale=en-in&categoryList=plus-games-list"))
    as (st & w' & Hrun & _ & _ & Hall & _ & Happ & Hflag).
  - reflexivity.
  - intros entry _. cbn [env_bad_json http_get]. by destruct (String.eqb _ _).
  - left.
  - reflexivity.
  - exists st, w'. split; [exact Hrun |]. split; [exact Hall |]. split; [exact Happ | exact Hflag].
Defined.

(** Every snapshot is written at time 0; two days later nothing is stale. *)
Lemma refresh_then_fresh_witness :
  needsRefresh 172800000 (disk (refreshOnce env_all_ok world_idle).2) = false.
Proof.
  apply (refresh_then_fresh env_all_ok world_idle (fun _ => sample_snapshot)
           (fun _ => sample_doc) 172800000).
  - reflexivity.
  - intros entry _. split; [reflexivity |]. split; [reflexivity | discriminate].
  - intros entry _. cbn [env_all_ok clock]. unfold THREE_DAYS_MS. lia.
Defined.

(** The four tasks in the reverse order. *)
Lemma source_tasks_any_order_witness :
  exists results results' s s',
    map_m (fun entry => settle (refresh_source env_all_ok entry)) ENDPOINTS
      (∅, world_idle) = (Return results, s) /\
    map_m (fun entry => settle (refresh_source env_all_ok entry)) (rev ENDPOINTS)
      (∅, world_idle) = (Return results', s') /\
    same_but_trace s s'.
Proof.
  destruct (source_tasks_any_order env_all_ok (rev ENDPOINTS) (∅, world_idle))
    as (results & results' & s & s' & Hrun & Hrun' & _ & _ & Hsame).
  - apply Permutation_rev.
  - by exists results, results', s, s'.
Defined.

Lemma refresh_full_success_witness :
  exists st w',
    refreshOnce env_all_ok world_idle = (Return (Done false st), w') /\
    app w' = empty_cache /\ isRefreshing w' = false.
Proof.
  destruct (refresh_full_success env_all_ok world_idle (fun _ => sample_snapshot)
              (fun _ => sample_doc))
    as (st & w' & Hrun & _ & _ & _ & _ & Happ & Hflag).
  - reflexivity.
  - reflexivity.
  - intros entry _. split; [reflexivity |]. split; [reflexivity | discriminate].
  - by exists st, w'.
Defined.

(** A guessed token against the default one. *)
Lemma admin_refresh_unauthorized_witness :
  post_admin_refresh None env_all_ok (Some "guess") world_idle = (Return Admin401, world_idle).
Proof.
  apply (admin_refresh_unauthorized None env_all_ok world_idle (Some "guess")).
  discriminate.
Defined.

(** '/included-classics' on a directory whose classics snapshot holds two
    games. *)
Lemma catalogue_route_serves_witness :
  (route_handler IncludedClassics empty_cache disk_shared_conceptId).1
  = R200 [ mkCatalogue "Playstation Plus Classic Games"
             "Classic Games from Playstation history, available on Plus Extra tier and above"
             2
             [ toPublicGame (sample_game 10001 "from classics");
               toPublicGame (sample_game 10002 "only in classics") ] ].
Proof.
  destruct (catalogue_route_serves IncludedClassics empty_cache disk_shared_conceptId
              (mkFile (snapshot_of [sample_game 10001 "from classics";
                                    sample_game 10002 "only in classics"]) 0)
              [ mkGroup (Some (lit "PLUS")) (Some 2)
                  (Some [sample_game 10001 "from classics";
                         sample_game 10002 "only in classics"]) ])
    as (Hrun & _).
  - reflexivity.
  - vm_compute. reflexivity.
  - reflexivity.
  - repeat constructor; by eexists.
  - rewrite Hrun. vm_compute. reflexivity.
Defined.

(** '/monthly-games' on an empty directory. *)
Lemma catalogue_route_failure_witness :
  exists details,
    route_handler MonthlyGames empty_cache (∅ : gmap string (File SampleText))
    = (R500 "Failed to load monthly games" details, empty_cache).
Proof.
  destruct (catalogue_route_failure MonthlyGames empty_cache
              (∅ : gmap string (File SampleText)))
    as (details & Hrun & _).
  - reflexivity.
  - left. reflexivity.
  - by exists details.
Defined.

(** The cache holds a stale '/all-games' body and nothing else; after the
    refresh '/included-games' answers with the two fetched games. *)
Lemma refresh_then_route_witness :
  (route_handler IncludedGames (app (refreshOnce env_all_ok world_idle).2)
     (disk (refreshOnce env_all_ok world_idle).2)).1
  = R200 (route_catalogue IncludedGames [sample_game 10001 "b"; sample_game 10002 "a"]).
Proof.
  destruct (refresh_then_route env_all_ok world_idle (fun _ => sample_snapshot)
              (fun _ => sample_doc) IncludedGames)
    as (_ & Hroute).
  - reflexivity.
  - reflexivity.
  - intros entry _. split; [reflexivity |]. split; [reflexivity | discriminate].
  - apply Hroute. repeat constructor; by eexists.
Defined.


End further_examples.
